(** * bdn/Number.h: the numeric wrapper, its bit operations and predicates

    A shallow embedding of [src/framework/foundation/include/bdn/Number.h]:
    the width-indexed bundles [_IntOpImpl<1|2|4|8>], the generic functions
    [invertByteOrder], [rotateBitsLeft], [rotateBitsRight], the predicates
    [isNan] and [isFinite], the wrapper class [Number<BaseType>] with its
    static trait functions and comparison operators, and the [std::hash]
    specialisations.

    Integers are mathematical integers ([Z]) together with the conversions
    that C++ applies between its fixed-width types; floating-point values
    are the IEEE 754 data of [SpecFloat.spec_float]. *)

From Stdlib Require Import ZArith Lia List Bool.
From Stdlib Require Import Floats.FloatClass Floats.SpecFloat.
Import ListNotations.

Local Open Scope Z_scope.

(** ** Machine integers *)

(** The byte counts for which [_IntOpImpl] has a specialisation.  The
    primary template is only declared, so any other [sizeof] is rejected
    when the program is compiled. *)
Inductive ByteCount : Type := B1 | B2 | B4 | B8.

Definition byte_count (bc : ByteCount) : Z :=
  match bc with B1 => 1 | B2 => 2 | B4 => 4 | B8 => 8 end.

Definition bit_width (bc : ByteCount) : Z := 8 * byte_count bc.

(** An integer type as the templates see it: its [sizeof] and its
    signedness.  [uint8_t] is [{| int_size := B1; int_signed := false |}],
    [int64_t] is [{| int_size := B8; int_signed := true |}], and so on. *)
Record IntType : Type := { int_size : ByteCount; int_signed : bool }.

Definition uintN (bc : ByteCount) : IntType :=
  {| int_size := bc; int_signed := false |}.
Definition intN (bc : ByteCount) : IntType :=
  {| int_size := bc; int_signed := true |}.

(** Conversion of a mathematical integer to the unsigned and to the
    two's-complement signed type of [w] bits. *)
Definition to_unsigned (w x : Z) : Z := x mod 2 ^ w.
Definition to_signed (w x : Z) : Z := (x + 2 ^ (w - 1)) mod 2 ^ w - 2 ^ (w - 1).

Definition convert (T : IntType) (x : Z) : Z :=
  if int_signed T then to_signed (bit_width (int_size T)) x
  else to_unsigned (bit_width (int_size T)) x.

(** The values of an integer type. *)
Definition in_range (T : IntType) (v : Z) : Prop :=
  if int_signed T
  then - 2 ^ (bit_width (int_size T) - 1) <= v < 2 ^ (bit_width (int_size T) - 1)
  else 0 <= v < 2 ^ bit_width (int_size T).

Definition in_rangeb (T : IntType) (v : Z) : bool :=
  if int_signed T
  then (- 2 ^ (bit_width (int_size T) - 1) <=? v) && (v <? 2 ^ (bit_width (int_size T) - 1))
  else (0 <=? v) && (v <? 2 ^ bit_width (int_size T)).

(** ** Shifts

    A shift whose count is not below the width of the (promoted) left
    operand has no meaning given by the language; the source applies such
    shifts when a rotation count is 0 or the full width.  The embedding
    covers the two results that hardware produces: the count is used as it
    is, so that every bit is shifted out ([ShiftOut]), or the count is
    reduced modulo the operand width first ([ShiftMasked]). *)
Inductive ShiftSem : Type := ShiftOut | ShiftMasked.

Definition shift_count (ss : ShiftSem) (w k : Z) : Z :=
  match ss with ShiftOut => k | ShiftMasked => k mod w end.

(** [<<] and [>>] on an unsigned operand of [w] bits. *)
Definition shl_u (ss : ShiftSem) (w v k : Z) : Z :=
  to_unsigned w (Z.shiftl v (shift_count ss w k)).
Definition shr_u (ss : ShiftSem) (w v k : Z) : Z :=
  Z.shiftr v (shift_count ss w k).

(** [<<], [>>] and [-] on [int] (32 bits), the type to which [uint8_t] and
    [uint16_t] operands are promoted. *)
Definition shl_int (ss : ShiftSem) (v k : Z) : Z :=
  to_signed 32 (Z.shiftl v (shift_count ss 32 k)).
Definition shr_int (ss : ShiftSem) (v k : Z) : Z :=
  Z.shiftr v (shift_count ss 32 k).
Definition sub_int (a b : Z) : Z := to_signed 32 (a - b).

(** ** Compiler intrinsics

    The three preprocessor branches of the source. *)
Inductive Toolchain : Type := MSC_VER | GNUC | OtherCompiler.

(** Little-endian byte sequence of a value and back. *)
Fixpoint bytes_of (n : nat) (v : Z) : list Z :=
  match n with
  | O => []
  | S n' => v mod 256 :: bytes_of n' (v / 256)
  end.

Fixpoint of_bytes (l : list Z) : Z :=
  match l with
  | [] => 0
  | b :: l' => b + 256 * of_bytes l'
  end.

(** [_byteswap_ushort], [_byteswap_ulong], [_byteswap_uint64] and
    [__builtin_bswap16/32/64]: the value whose bytes are those of the
    argument in reverse order. *)
Definition byteswap (n : nat) (v : Z) : Z := of_bytes (rev (bytes_of n v)).

(** [_rotl], [_rotl64] and [_rotr], [_rotr64]: rotation of a [w]-bit value
    by [shift] positions, the count taken modulo [w]. *)
Definition _rotl (w value shift : Z) : Z :=
  let s := shift mod w in
  to_unsigned w (Z.lor (Z.shiftl value s) (Z.shiftr value (w - s))).
Definition _rotr (w value shift : Z) : Z :=
  let s := shift mod w in
  to_unsigned w (Z.lor (Z.shiftr value s) (Z.shiftl value (w - s))).

(** ** The width bundles [_IntOpImpl<byteCount>] *)

Module IntOpImpl1.
Definition _rotateBitsLeftImpl (ss : ShiftSem) (val bits : Z) : Z :=
  to_unsigned 8 (Z.lor (shl_int ss val bits) (shr_int ss val (sub_int 8 bits))).

Definition _rotateBitsRightImpl (ss : ShiftSem) (val bits : Z) : Z :=
  to_unsigned 8 (Z.lor (shr_int ss val bits) (shl_int ss val (sub_int 8 bits))).

Definition _invertByteOrderImpl (val : Z) : Z := val.
End IntOpImpl1.

Module IntOpImpl2.
Definition _rotateBitsLeftImpl (ss : ShiftSem) (val bits : Z) : Z :=
  to_unsigned 16 (Z.lor (shl_int ss val bits) (shr_int ss val (sub_int 16 bits))).

Definition _rotateBitsRightImpl (ss : ShiftSem) (val bits : Z) : Z :=
  to_unsigned 16 (Z.lor (shr_int ss val bits) (shl_int ss val (sub_int 16 bits))).

Definition _invertByteOrderImpl (tc : Toolchain) (ss : ShiftSem) (val : Z) : Z :=
  match tc with
  | MSC_VER => byteswap 2 val
  | GNUC => byteswap 2 val
  | OtherCompiler =>
      to_unsigned 16
        (Z.lor (shl_int ss (Z.land val 0xff) 8)
               (shr_int ss (Z.land val 0xff00) 8))
  end.
End IntOpImpl2.

Module IntOpImpl4.
Definition _rotateBitsLeftImpl (tc : Toolchain) (ss : ShiftSem) (val bits : Z) : Z :=
  match tc with
  | MSC_VER => _rotl 32 val bits
  | _ => Z.lor (shl_u ss 32 val bits) (shr_u ss 32 val (sub_int 32 bits))
  end.

Definition _rotateBitsRightImpl (tc : Toolchain) (ss : ShiftSem) (val bits : Z) : Z :=
  match tc with
  | MSC_VER => _rotr 32 val bits
  | _ => Z.lor (shr_u ss 32 val bits) (shl_u ss 32 val (sub_int 32 bits))
  end.

Definition _invertByteOrderImpl (tc : Toolchain) (ss : ShiftSem) (val : Z) : Z :=
  match tc with
  | MSC_VER => byteswap 4 val
  | GNUC => byteswap 4 val
  | OtherCompiler =>
      Z.lor (Z.lor (Z.lor
        (shl_u ss 32 (Z.land val 0xff) 24)
        (shl_u ss 32 (Z.land val 0xff00) 8))
        (shr_u ss 32 (Z.land val 0xff0000) 8))
        (shr_u ss 32 (Z.land val 0xff000000) 24)
  end.
End IntOpImpl4.

Module IntOpImpl8.
Definition _rotateBitsLeftImpl (tc : Toolchain) (ss : ShiftSem) (val bits : Z) : Z :=
  match tc with
  | MSC_VER => _rotl 64 val bits
  | _ => Z.lor (shl_u ss 64 val bits) (shr_u ss 64 val (sub_int 64 bits))
  end.

Definition _rotateBitsRightImpl (tc : Toolchain) (ss : ShiftSem) (val bits : Z) : Z :=
  match tc with
  | MSC_VER => _rotr 64 val bits
  | _ => Z.lor (shr_u ss 64 val bits) (shl_u ss 64 val (sub_int 64 bits))
  end.

Definition _invertByteOrderImpl (tc : Toolchain) (ss : ShiftSem) (val : Z) : Z :=
  match tc with
  | MSC_VER => byteswap 8 val
  | GNUC => byteswap 8 val
  | OtherCompiler =>
      Z.lor (Z.lor (Z.lor (Z.lor (Z.lor (Z.lor (Z.lor
        (shl_u ss 64 (Z.land val 0xff) 56)
        (shl_u ss 64 (Z.land val 0xff00) 40))
        (shl_u ss 64 (Z.land val 0xff0000) 24))
        (shl_u ss 64 (Z.land val 0xff000000) 8))
        (shr_u ss 64 (Z.land val 0xff00000000) 8))
        (shr_u ss 64 (Z.land val 0xff0000000000) 24))
        (shr_u ss 64 (Z.land val 0xff000000000000) 40))
        (shr_u ss 64 (Z.land val 0xff00000000000000) 56)
  end.
End IntOpImpl8.

(** Selection of the bundle by [sizeof(ArgIntType)]. *)
Definition _rotateBitsLeftImpl (tc : Toolchain) (ss : ShiftSem)
    (byteCount : ByteCount) (val bits : Z) : Z :=
  match byteCount with
  | B1 => IntOpImpl1._rotateBitsLeftImpl ss val bits
  | B2 => IntOpImpl2._rotateBitsLeftImpl ss val bits
  | B4 => IntOpImpl4._rotateBitsLeftImpl tc ss val bits
  | B8 => IntOpImpl8._rotateBitsLeftImpl tc ss val bits
  end.

Definition _rotateBitsRightImpl (tc : Toolchain) (ss : ShiftSem)
    (byteCount : ByteCount) (val bits : Z) : Z :=
  match byteCount with
  | B1 => IntOpImpl1._rotateBitsRightImpl ss val bits
  | B2 => IntOpImpl2._rotateBitsRightImpl ss val bits
  | B4 => IntOpImpl4._rotateBitsRightImpl tc ss val bits
  | B8 => IntOpImpl8._rotateBitsRightImpl tc ss val bits
  end.

Definition _invertByteOrderImpl (tc : Toolchain) (ss : ShiftSem)
    (byteCount : ByteCount) (val : Z) : Z :=
  match byteCount with
  | B1 => IntOpImpl1._invertByteOrderImpl val
  | B2 => IntOpImpl2._invertByteOrderImpl tc ss val
  | B4 => IntOpImpl4._invertByteOrderImpl tc ss val
  | B8 => IntOpImpl8._invertByteOrderImpl tc ss val
  end.

(** ** The generic functions

    The argument is converted to the unsigned parameter type of the bundle
    and the result is cast back to [ArgIntType]. *)
Definition invertByteOrder (tc : Toolchain) (ss : ShiftSem)
    (ArgIntType : IntType) (value : Z) : Z :=
  let bc := int_size ArgIntType in
  convert ArgIntType
    (_invertByteOrderImpl tc ss bc (to_unsigned (bit_width bc) value)).

Definition rotateBitsLeft (tc : Toolchain) (ss : ShiftSem)
    (ArgIntType : IntType) (value bits : Z) : Z :=
  let bc := int_size ArgIntType in
  convert ArgIntType
    (_rotateBitsLeftImpl tc ss bc (to_unsigned (bit_width bc) value) bits).

Definition rotateBitsRight (tc : Toolchain) (ss : ShiftSem)
    (ArgIntType : IntType) (value bits : Z) : Z :=
  let bc := int_size ArgIntType in
  convert ArgIntType
    (_rotateBitsRightImpl tc ss bc (to_unsigned (bit_width bc) value) bits).

(** ** Numeric types *)

Inductive FloatType : Type := float | double | long_double.

(** Precision and exponent bound of the IEEE format of a floating-point
    type ([long double] as the 80-bit extended format). *)
Definition float_prec (F : FloatType) : Z :=
  match F with float => 24 | double => 53 | long_double => 64 end.
Definition float_emax (F : FloatType) : Z :=
  match F with float => 128 | double => 1024 | long_double => 16384 end.

(** The types that [Number] and the predicates are instantiated with. *)
Inductive NumericType : Type :=
  | Integer (IT : IntType)
  | Floating (F : FloatType).

(** The values a variable of a numeric type holds. *)
Definition carrier (T : NumericType) : Type :=
  match T with
  | Integer _ => Z
  | Floating _ => spec_float
  end.

Definition is_value (T : NumericType) : carrier T -> Prop :=
  match T with
  | Integer IT => fun v => in_range IT v
  | Floating F => fun v => valid_binary (float_prec F) (float_emax F) v = true
  end.

(** The literal [0] converted to a numeric type. *)
Definition zero (T : NumericType) : carrier T :=
  match T with
  | Integer _ => 0
  | Floating _ => S754_zero false
  end.

(** The built-in operators [==], [<], [<=] and [-] on two operands of one
    numeric type; [!=], [>] and [>=] are expressed by them. *)
Definition builtin_eq (T : NumericType) : carrier T -> carrier T -> bool :=
  match T with
  | Integer _ => Z.eqb
  | Floating _ => SFeqb
  end.

Definition builtin_lt (T : NumericType) : carrier T -> carrier T -> bool :=
  match T with
  | Integer _ => Z.ltb
  | Floating _ => SFltb
  end.

Definition builtin_le (T : NumericType) : carrier T -> carrier T -> bool :=
  match T with
  | Integer _ => Z.leb
  | Floating _ => SFleb
  end.

Definition builtin_ne (T : NumericType) (a b : carrier T) : bool :=
  negb (builtin_eq T a b).
Definition builtin_gt (T : NumericType) (a b : carrier T) : bool :=
  builtin_lt T b a.
Definition builtin_ge (T : NumericType) (a b : carrier T) : bool :=
  builtin_le T b a.

Definition builtin_sub (T : NumericType) : carrier T -> carrier T -> carrier T :=
  match T with
  | Integer IT => fun a b => convert IT (a - b)
  | Floating F => SFsub (float_prec F) (float_emax F)
  end.

(** ** [std::numeric_limits]

    The members of the standard library's [numeric_limits<T>] that the
    source reads.  For an integer type [has_infinity] and [has_quiet_NaN]
    are false and [infinity()], [quiet_NaN()] return [T()], that is 0. *)
Module numeric_limits.
Definition is_integer (T : NumericType) : bool :=
  match T with Integer _ => true | Floating _ => false end.

Definition is_signed (T : NumericType) : bool :=
  match T with Integer IT => int_signed IT | Floating _ => true end.

Definition has_infinity (T : NumericType) : bool :=
  match T with Integer _ => false | Floating _ => true end.

Definition has_quiet_NaN (T : NumericType) : bool :=
  match T with Integer _ => false | Floating _ => true end.

Definition infinity (T : NumericType) : carrier T :=
  match T with
  | Integer _ => 0
  | Floating _ => S754_infinity false
  end.

Definition quiet_NaN (T : NumericType) : carrier T :=
  match T with
  | Integer _ => 0
  | Floating _ => S754_nan
  end.

Definition max (T : NumericType) : carrier T :=
  match T with
  | Integer IT =>
      if int_signed IT then 2 ^ (bit_width (int_size IT) - 1) - 1
      else 2 ^ bit_width (int_size IT) - 1
  | Floating F => SFmax_float (float_prec F) (float_emax F)
  end.

Definition lowest (T : NumericType) : carrier T :=
  match T with
  | Integer IT =>
      if int_signed IT then - 2 ^ (bit_width (int_size IT) - 1) else 0
  | Floating F => SFopp (SFmax_float (float_prec F) (float_emax F))
  end.
End numeric_limits.

(** ** The class [Number<BaseType>] *)

Record Number (BaseType : NumericType) : Type :=
  Number_ctor { _value : carrier BaseType }.

Arguments Number_ctor {BaseType} _.
Arguments _value {BaseType} _.

(** [Number(BaseType value = 0)] without an argument. *)
Definition Number_default (BaseType : NumericType) : Number BaseType :=
  Number_ctor (zero BaseType).

Definition maxValue (BaseType : NumericType) : carrier BaseType :=
  numeric_limits.max BaseType.

Definition minValue (BaseType : NumericType) : carrier BaseType :=
  numeric_limits.lowest BaseType.

Definition infinity (BaseType : NumericType) : carrier BaseType :=
  numeric_limits.infinity BaseType.

Definition negativeInfinity (BaseType : NumericType) : carrier BaseType :=
  builtin_sub BaseType (zero BaseType) (numeric_limits.infinity BaseType).

Definition nan (BaseType : NumericType) : carrier BaseType :=
  numeric_limits.quiet_NaN BaseType.

Definition hasInfinity (BaseType : NumericType) : bool :=
  numeric_limits.has_infinity BaseType.

Definition hasNan (BaseType : NumericType) : bool :=
  numeric_limits.has_quiet_NaN BaseType.

Definition isSigned (BaseType : NumericType) : bool :=
  numeric_limits.is_signed BaseType.

Definition isInteger (BaseType : NumericType) : bool :=
  numeric_limits.is_integer BaseType.

Definition getValue {BaseType : NumericType} (this : Number BaseType)
    : carrier BaseType :=
  _value this.

Definition setValue {BaseType : NumericType} (this : Number BaseType)
    (val : carrier BaseType) : Number BaseType :=
  Number_ctor val.

(** The comparison operators, for a right operand of the base type. *)
Definition operator_eq {BaseType : NumericType} (this : Number BaseType)
    (otherValue : carrier BaseType) : bool :=
  builtin_eq BaseType (_value this) otherValue.

Definition operator_ne {BaseType : NumericType} (this : Number BaseType)
    (otherValue : carrier BaseType) : bool :=
  builtin_ne BaseType (_value this) otherValue.

Definition operator_lt {BaseType : NumericType} (this : Number BaseType)
    (otherValue : carrier BaseType) : bool :=
  builtin_lt BaseType (_value this) otherValue.

Definition operator_le {BaseType : NumericType} (this : Number BaseType)
    (otherValue : carrier BaseType) : bool :=
  builtin_le BaseType (_value this) otherValue.

Definition operator_gt {BaseType : NumericType} (this : Number BaseType)
    (otherValue : carrier BaseType) : bool :=
  builtin_gt BaseType (_value this) otherValue.

Definition operator_ge {BaseType : NumericType} (this : Number BaseType)
    (otherValue : carrier BaseType) : bool :=
  builtin_ge BaseType (_value this) otherValue.

(** ** [isNan] and [isFinite] *)

(** [std::isnan] and [std::isfinite] on a floating-point value. *)
Definition fp_isnan (x : spec_float) : bool :=
  match x with S754_nan => true | _ => false end.

Definition fp_isfinite (x : spec_float) : bool :=
  match x with
  | S754_zero _ | S754_finite _ _ _ => true
  | S754_infinity _ | S754_nan => false
  end.

(** Conversion of an integer to [double], rounding to nearest even. *)
Definition double_of_int (v : Z) : spec_float :=
  binary_normalize 53 1024 v 0 false.

(** The overload sets [std::isnan] and [std::isfinite]: the overloads for
    integer arguments convert the argument to [double]. *)
Definition std_isnan (ValueType : NumericType) : carrier ValueType -> bool :=
  match ValueType with
  | Integer _ => fun value => fp_isnan (double_of_int value)
  | Floating _ => fun value => fp_isnan value
  end.

Definition std_isfinite (ValueType : NumericType) : carrier ValueType -> bool :=
  match ValueType with
  | Integer _ => fun value => fp_isfinite (double_of_int value)
  | Floating _ => fun value => fp_isfinite value
  end.

(** [MscNumberUtilHelper_<IsFloatingPoint>]: the primary template answers
    with constants, the specialisation for [true] asks the library. *)
Module MscNumberUtilHelper_.
Definition isNan (IsFloatingPoint : bool) (ValueType : NumericType)
    (value : carrier ValueType) : bool :=
  if IsFloatingPoint then std_isnan ValueType value else false.

Definition isFinite (IsFloatingPoint : bool) (ValueType : NumericType)
    (value : carrier ValueType) : bool :=
  if IsFloatingPoint then std_isfinite ValueType value else true.
End MscNumberUtilHelper_.

(** The two configuration macros of [bdn/config.h] that select the
    workaround. *)
Record Config : Type := {
  BDN_STD_ISNAN_INT_MISSING : bool;
  BDN_STD_ISFINITE_INT_MISSING : bool
}.

Definition isNan (cfg : Config) (ValueType : NumericType)
    (value : carrier ValueType) : bool :=
  if BDN_STD_ISNAN_INT_MISSING cfg
  then MscNumberUtilHelper_.isNan
         (negb (numeric_limits.is_integer ValueType)) ValueType value
  else std_isnan ValueType value.

Definition isFinite (cfg : Config) (ValueType : NumericType)
    (value : carrier ValueType) : bool :=
  if BDN_STD_ISFINITE_INT_MISSING cfg
  then MscNumberUtilHelper_.isFinite
         (negb (numeric_limits.is_integer ValueType)) ValueType value
  else std_isfinite ValueType value.

(** ** [std::hash] for [Number] *)

(** The base types for which the header specialises [std::hash]. *)
Inductive HashedType : Type :=
  | signed_char | unsigned_char
  | short | unsigned_short
  | int | unsigned_int
  | long | unsigned_long
  | long_long | unsigned_long_long
  | hashed_float | hashed_double | hashed_long_double.

(** [sizeof(long)] is 4 or 8 bytes depending on the platform. *)
Inductive DataModel : Type := LongIs32 | LongIs64.

Definition sizeof_long (dm : DataModel) : ByteCount :=
  match dm with LongIs32 => B4 | LongIs64 => B8 end.

Definition base_type (dm : DataModel) (T : HashedType) : NumericType :=
  match T with
  | signed_char => Integer (intN B1)
  | unsigned_char => Integer (uintN B1)
  | short => Integer (intN B2)
  | unsigned_short => Integer (uintN B2)
  | int => Integer (intN B4)
  | unsigned_int => Integer (uintN B4)
  | long => Integer (intN (sizeof_long dm))
  | unsigned_long => Integer (uintN (sizeof_long dm))
  | long_long => Integer (intN B8)
  | unsigned_long_long => Integer (uintN B8)
  | hashed_float => Floating float
  | hashed_double => Floating double
  | hashed_long_double => Floating long_double
  end.

Section Hash.
Variable dm : DataModel.

(** The host library's [std::hash<T>] for the raw types; its result is a
    [size_t]. *)
Variable std_hash : forall T : HashedType, carrier (base_type dm T) -> Z.

(** [std::hash<bdn::Number<T>>::operator()], one specialisation for each
    hashed type. *)
Definition hash_Number (T : HashedType)
    : Number (base_type dm T) -> Z :=
  match T with
  | signed_char => fun key => std_hash signed_char (getValue key)
  | unsigned_char => fun key => std_hash unsigned_char (getValue key)
  | short => fun key => std_hash short (getValue key)
  | unsigned_short => fun key => std_hash unsigned_short (getValue key)
  | int => fun key => std_hash int (getValue key)
  | unsigned_int => fun key => std_hash unsigned_int (getValue key)
  | long => fun key => std_hash long (getValue key)
  | unsigned_long => fun key => std_hash unsigned_long (getValue key)
  | long_long => fun key => std_hash long_long (getValue key)
  | unsigned_long_long => fun key => std_hash unsigned_long_long (getValue key)
  | hashed_float => fun key => std_hash hashed_float (getValue key)
  | hashed_double => fun key => std_hash hashed_double (getValue key)
  | hashed_long_double => fun key => std_hash hashed_long_double (getValue key)
  end.
End Hash.

(** ** Reference rotations

    The rotation that the documentation of [rotateBitsLeft] and
    [rotateBitsRight] gives as their effect, on mathematical integers. *)
Definition rotl_spec (w v k : Z) : Z :=
  to_unsigned w (Z.lor (Z.shiftl v k) (Z.shiftr v (w - k))).
Definition rotr_spec (w v k : Z) : Z :=
  to_unsigned w (Z.lor (Z.shiftr v k) (Z.shiftl v (w - k))).

Definition is_byte (b : Z) : Prop := 0 <= b < 256.

(** Position of bit [i] of an [n]-byte value once its bytes are reversed:
    the byte index is mirrored, the position inside the byte is kept. *)
Definition swap_index (n i : Z) : Z := 8 * (n - 1 - i / 8) + i mod 8.

(** The classes of the floating-point values that are neither infinite nor
    NaN: zeros, subnormal and normal numbers. *)
Definition is_finite_class (c : float_class) : bool :=
  match c with
  | PNormal | NNormal | PSubn | NSubn | PZero | NZero => true
  | NaN | PInf | NInf => false
  end.

Definition finite_value (F : FloatType) (v : spec_float) : Prop :=
  is_finite_class (SFclassify (float_prec F) v) = true.

(** Whether a value is NaN; no integer is. *)
Definition is_nan (T : NumericType) : carrier T -> bool :=
  match T with
  | Integer _ => fun _ => false
  | Floating _ => fun v => fp_isnan v
  end.

(** [operator=] from a raw value and the conversion [operator BaseType]. *)
Definition operator_assign {BaseType : NumericType} (this : Number BaseType)
    (arg : carrier BaseType) : Number BaseType :=
  Number_ctor arg.

Definition operator_BaseType {BaseType : NumericType} (this : Number BaseType)
    : carrier BaseType :=
  _value this.

(** The bit pattern with every bit of a [w]-bit value set. *)
Definition all_ones (w : Z) : Z := to_unsigned w (-1).

(** * Properties *)

(** ** Conversions *)

Lemma bit_width_cases (bc : ByteCount) :
  bit_width bc = 8 \/ bit_width bc = 16 \/ bit_width bc = 32 \/ bit_width bc = 64.
Proof. destruct bc; cbv; auto. Qed.

Lemma bit_width_pos (bc : ByteCount) : 0 < bit_width bc.
Proof. destruct bc; reflexivity. Qed.

Lemma pow2_pos (w : Z) : 0 <= w -> 0 < 2 ^ w.
Proof. intros; apply Z.pow_pos_nonneg; lia. Qed.

Lemma to_unsigned_range (w x : Z) : 0 <= w -> 0 <= to_unsigned w x < 2 ^ w.
Proof. intros; unfold to_unsigned; apply Z.mod_pos_bound, pow2_pos; lia. Qed.

Lemma to_unsigned_small (w x : Z) : 0 <= x < 2 ^ w -> to_unsigned w x = x.
Proof. intros; unfold to_unsigned; apply Z.mod_small; lia. Qed.

Lemma pow2_half (w : Z) : 0 < w -> 2 ^ w = 2 * 2 ^ (w - 1).
Proof.
  intros; rewrite <- Z.pow_succ_r by lia; f_equal; lia.
Qed.

Lemma to_signed_small (w x : Z) :
  0 < w -> - 2 ^ (w - 1) <= x < 2 ^ (w - 1) -> to_signed w x = x.
Proof.
  intros Hw Hx; unfold to_signed.
  rewrite Z.mod_small; [lia|]. rewrite (pow2_half w) by lia; lia.
Qed.

Lemma to_signed_range (w x : Z) :
  0 < w -> - 2 ^ (w - 1) <= to_signed w x < 2 ^ (w - 1).
Proof.
  intros Hw; unfold to_signed.
  pose proof (Z.mod_pos_bound (x + 2 ^ (w - 1)) (2 ^ w) (pow2_pos w ltac:(lia))).
  rewrite (pow2_half w) in * by lia; lia.
Qed.

(** A signed representative agrees with its argument on the low bits. *)
Lemma to_unsigned_to_signed (w n x : Z) :
  0 <= w <= n -> to_unsigned w (to_signed n x) = to_unsigned w x.
Proof.
  intros Hw; unfold to_unsigned, to_signed.
  assert (Hn : 2 ^ n = 2 ^ w * 2 ^ (n - w)).
  { rewrite <- Z.pow_add_r by lia; f_equal; lia. }
  pose proof (pow2_pos w ltac:(lia)) as Hp.
  pose proof (pow2_pos n ltac:(lia)) as Hq.
  rewrite (Z.mod_eq (x + 2 ^ (n - 1)) (2 ^ n)) by lia.
  replace (x + 2 ^ (n - 1) - 2 ^ n * ((x + 2 ^ (n - 1)) / 2 ^ n) - 2 ^ (n - 1))
    with (x + (- (2 ^ (n - w) * ((x + 2 ^ (n - 1)) / 2 ^ n))) * 2 ^ w)
    by (rewrite Hn; ring).
  apply Z.mod_add; lia.
Qed.

Lemma to_signed_to_unsigned (w x : Z) :
  0 < w -> to_signed w (to_unsigned w x) = to_signed w x.
Proof.
  intros Hw; unfold to_unsigned, to_signed; f_equal.
  pose proof (pow2_pos w ltac:(lia)).
  rewrite Z.add_mod_idemp_l by lia; reflexivity.
Qed.

Lemma convert_range (T : IntType) (x : Z) : in_range T (convert T x).
Proof.
  unfold in_range, convert; pose proof (bit_width_pos (int_size T)).
  destruct (int_signed T);
    [apply to_signed_range | apply to_unsigned_range]; lia.
Qed.

(** Passing a value of [T] to an unsigned parameter of the same width and
    casting back returns the value. *)
Lemma convert_to_unsigned (T : IntType) (v : Z) :
  in_range T v -> convert T (to_unsigned (bit_width (int_size T)) v) = v.
Proof.
  unfold in_range, convert; pose proof (bit_width_pos (int_size T)).
  destruct (int_signed T); intros Hv.
  - rewrite to_signed_to_unsigned by lia. apply to_signed_small; lia.
  - unfold to_unsigned; rewrite Z.mod_mod by (pose proof (pow2_pos (bit_width (int_size T))); lia).
    apply Z.mod_small; lia.
Qed.

Lemma to_unsigned_convert (T : IntType) (x : Z) :
  0 <= x < 2 ^ bit_width (int_size T) ->
  to_unsigned (bit_width (int_size T)) (convert T x) = x.
Proof.
  unfold convert; pose proof (bit_width_pos (int_size T)); intros Hx.
  destruct (int_signed T).
  - rewrite to_unsigned_to_signed by lia. apply to_unsigned_small; lia.
  - rewrite to_unsigned_small; apply to_unsigned_range || apply to_unsigned_small;
      lia.
Qed.

Lemma in_rangeb_spec (T : IntType) (v : Z) : in_rangeb T v = true <-> in_range T v.
Proof.
  unfold in_rangeb, in_range; destruct (int_signed T);
    rewrite andb_true_iff, Z.leb_le, Z.ltb_lt; tauto.
Qed.

(** ** Bits of the reference rotations *)

Lemma testbit_above (w v n : Z) :
  0 <= v < 2 ^ w -> 0 <= w <= n -> Z.testbit v n = false.
Proof.
  intros Hv Hn. rewrite <- (Z.mod_small v (2 ^ w)) by lia.
  apply Z.mod_pow2_bits_high; lia.
Qed.

Lemma to_unsigned_lor (w a b : Z) :
  0 <= w ->
  to_unsigned w (Z.lor a b) = Z.lor (to_unsigned w a) (to_unsigned w b).
Proof.
  intros; unfold to_unsigned.
  rewrite <- !Z.land_ones by lia. apply Z.land_lor_distr_l.
Qed.

Lemma shiftr_full (w v : Z) : 0 <= w -> 0 <= v < 2 ^ w -> Z.shiftr v w = 0.
Proof.
  intros; rewrite Z.shiftr_div_pow2 by lia. apply Z.div_small; lia.
Qed.

Lemma shiftr_range (w v k : Z) :
  0 <= k -> 0 <= v < 2 ^ w -> 0 <= Z.shiftr v k < 2 ^ w.
Proof.
  intros Hk Hv; rewrite Z.shiftr_div_pow2 by lia.
  pose proof (pow2_pos k Hk). split.
  - apply Z.div_pos; lia.
  - apply Z.le_lt_trans with v; [|lia]. apply Z.div_le_upper_bound; nia.
Qed.

Lemma to_unsigned_shiftl_full (w v : Z) :
  0 <= w -> to_unsigned w (Z.shiftl v w) = 0.
Proof.
  intros; unfold to_unsigned; rewrite Z.shiftl_mul_pow2 by lia.
  apply Z.mod_mul. pose proof (pow2_pos w); lia.
Qed.

Lemma rotl_spec_range (w v k : Z) : 0 <= w -> 0 <= rotl_spec w v k < 2 ^ w.
Proof. intros; apply to_unsigned_range; lia. Qed.

Lemma rotr_spec_range (w v k : Z) : 0 <= w -> 0 <= rotr_spec w v k < 2 ^ w.
Proof. intros; apply to_unsigned_range; lia. Qed.

(** Bit [n] of a left rotation by [k] is bit [n - k] of the argument,
    counted cyclically. *)
Lemma rotl_spec_bits (w v k n : Z) :
  0 <= v < 2 ^ w -> 0 < k < w -> 0 <= n < w ->
  Z.testbit (rotl_spec w v k) n =
  if n <? k then Z.testbit v (n + (w - k)) else Z.testbit v (n - k).
Proof.
  intros Hv Hk Hn; unfold rotl_spec, to_unsigned.
  rewrite Z.mod_pow2_bits_low, Z.lor_spec, Z.shiftl_spec, Z.shiftr_spec by lia.
  destruct (Z.ltb_spec n k).
  - rewrite (Z.testbit_neg_r v (n - k)) by lia. reflexivity.
  - rewrite (testbit_above w v (n + (w - k))) by lia. apply orb_false_r.
Qed.

Lemma rotr_spec_bits (w v k n : Z) :
  0 <= v < 2 ^ w -> 0 < k < w -> 0 <= n < w ->
  Z.testbit (rotr_spec w v k) n =
  if n <? w - k then Z.testbit v (n + k) else Z.testbit v (n - (w - k)).
Proof.
  intros Hv Hk Hn; unfold rotr_spec, to_unsigned.
  rewrite Z.mod_pow2_bits_low, Z.lor_spec, Z.shiftl_spec, Z.shiftr_spec by lia.
  destruct (Z.ltb_spec n (w - k)).
  - rewrite (Z.testbit_neg_r v (n - (w - k))) by lia. apply orb_false_r.
  - rewrite (testbit_above w v (n + k)) by lia. reflexivity.
Qed.

(** Two values below [2 ^ w] are equal when their low [w] bits agree. *)
Lemma eq_by_low_bits (w a b : Z) :
  0 <= w -> 0 <= a < 2 ^ w -> 0 <= b < 2 ^ w ->
  (forall n, 0 <= n < w -> Z.testbit a n = Z.testbit b n) -> a = b.
Proof.
  intros Hw Ha Hb H. apply Z.bits_inj'; intros n Hn.
  destruct (Z.lt_ge_cases n w).
  - apply H; lia.
  - rewrite (testbit_above w a n), (testbit_above w b n) by lia. reflexivity.
Qed.

Lemma rotr_rotl_spec (w v k : Z) :
  0 <= v < 2 ^ w -> 0 < k < w -> rotr_spec w (rotl_spec w v k) k = v.
Proof.
  intros Hv Hk. apply (eq_by_low_bits w); try lia.
  - apply rotr_spec_range; lia.
  - intros n Hn.
    rewrite rotr_spec_bits by (try apply rotl_spec_range; lia).
    destruct (Z.ltb_spec n (w - k)).
    + rewrite rotl_spec_bits by lia.
      destruct (Z.ltb_spec (n + k) k); [lia|]. f_equal; lia.
    + rewrite rotl_spec_bits by lia.
      destruct (Z.ltb_spec (n - (w - k)) k); [|lia]. f_equal; lia.
Qed.

Lemma rotl_rotr_spec (w v k : Z) :
  0 <= v < 2 ^ w -> 0 < k < w -> rotl_spec w (rotr_spec w v k) k = v.
Proof.
  intros Hv Hk. apply (eq_by_low_bits w); try lia.
  - apply rotl_spec_range; lia.
  - intros n Hn.
    rewrite rotl_spec_bits by (try apply rotr_spec_range; lia).
    destruct (Z.ltb_spec n k).
    + rewrite rotr_spec_bits by lia.
      destruct (Z.ltb_spec (n + (w - k)) (w - k)); [lia|]. f_equal; lia.
    + rewrite rotr_spec_bits by lia.
      destruct (Z.ltb_spec (n - k) (w - k)); [|lia]. f_equal; lia.
Qed.

(** ** The shift forms of the bundles

    For a count strictly inside the width the shift form is the reference
    rotation; for the counts 0 and [w] it returns its argument, under
    either result of a full-width shift. *)

Lemma shift_count_small (ss : ShiftSem) (w k : Z) :
  0 <= k < w -> shift_count ss w k = k.
Proof. intros; destruct ss; simpl; [|apply Z.mod_small]; auto. Qed.

Lemma sub_int_small (a b : Z) :
  - 2 ^ 31 <= a - b < 2 ^ 31 -> sub_int a b = a - b.
Proof. intros; apply (to_signed_small 32); simpl; lia. Qed.

Section ShiftForms.
Variable ss : ShiftSem.
Variable w : Z.
Variable v : Z.
Hypothesis Hv : 0 <= v < 2 ^ w.

(** *** Operands promoted to [int] (widths 8 and 16) *)
Section Promoted.
Hypothesis Hw : 0 < w <= 16.

Lemma promoted_left_mid (k : Z) :
  0 <= k <= w ->
  to_unsigned w (Z.lor (shl_int ss v k) (shr_int ss v (sub_int w k))) =
  rotl_spec w v k.
Proof.
  intros Hk; unfold shl_int, shr_int, rotl_spec.
  rewrite sub_int_small by (simpl; lia).
  rewrite !shift_count_small by lia.
  rewrite !to_unsigned_lor, to_unsigned_to_signed by lia. reflexivity.
Qed.

Lemma promoted_right_mid (k : Z) :
  0 <= k <= w ->
  to_unsigned w (Z.lor (shr_int ss v k) (shl_int ss v (sub_int w k))) =
  rotr_spec w v k.
Proof.
  intros Hk; unfold shl_int, shr_int, rotr_spec.
  rewrite sub_int_small by (simpl; lia).
  rewrite !shift_count_small by lia.
  rewrite !to_unsigned_lor, to_unsigned_to_signed by lia. reflexivity.
Qed.
End Promoted.

(** *** Unsigned operands of the full width (widths 32 and 64) *)
Section Wide.
Hypothesis Hw : 0 < w <= 64.

Lemma wide_left_mid (k : Z) :
  0 < k < w ->
  Z.lor (shl_u ss w v k) (shr_u ss w v (sub_int w k)) = rotl_spec w v k.
Proof.
  intros Hk; unfold shl_u, shr_u, rotl_spec.
  rewrite sub_int_small by (simpl; lia).
  rewrite !shift_count_small by lia.
  rewrite to_unsigned_lor by lia. f_equal.
  symmetry; apply to_unsigned_small, shiftr_range; lia.
Qed.

Lemma wide_right_mid (k : Z) :
  0 < k < w ->
  Z.lor (shr_u ss w v k) (shl_u ss w v (sub_int w k)) = rotr_spec w v k.
Proof.
  intros Hk; unfold shl_u, shr_u, rotr_spec.
  rewrite sub_int_small by (simpl; lia).
  rewrite !shift_count_small by lia.
  rewrite to_unsigned_lor by lia. f_equal.
  symmetry; apply to_unsigned_small, shiftr_range; lia.
Qed.

Lemma shl_u_0 : shl_u ss w v 0 = v.
Proof.
  unfold shl_u. rewrite shift_count_small by lia.
  rewrite Z.shiftl_0_r. apply to_unsigned_small, Hv.
Qed.

Lemma shr_u_0 : shr_u ss w v 0 = v.
Proof.
  unfold shr_u. rewrite shift_count_small by lia. apply Z.shiftr_0_r.
Qed.

(** A shift by the full width gives 0 or the operand. *)
Lemma shl_u_full : shl_u ss w v w = 0 \/ shl_u ss w v w = v.
Proof.
  unfold shl_u; destruct ss; simpl.
  - left; apply to_unsigned_shiftl_full; lia.
  - right; rewrite Z.mod_same, Z.shiftl_0_r by lia.
    apply to_unsigned_small, Hv.
Qed.

Lemma shr_u_full : shr_u ss w v w = 0 \/ shr_u ss w v w = v.
Proof.
  unfold shr_u; destruct ss; simpl.
  - left; apply shiftr_full; lia.
  - right; rewrite Z.mod_same by lia. apply Z.shiftr_0_r.
Qed.

Lemma wide_left_0 :
  Z.lor (shl_u ss w v 0) (shr_u ss w v (sub_int w 0)) = v.
Proof.
  rewrite sub_int_small, Z.sub_0_r, shl_u_0 by (simpl; lia).
  destruct shr_u_full as [-> | ->]; [apply Z.lor_0_r | apply Z.lor_diag].
Qed.

Lemma wide_right_0 :
  Z.lor (shr_u ss w v 0) (shl_u ss w v (sub_int w 0)) = v.
Proof.
  rewrite sub_int_small, Z.sub_0_r, shr_u_0 by (simpl; lia).
  destruct shl_u_full as [-> | ->]; [apply Z.lor_0_r | apply Z.lor_diag].
Qed.

Lemma wide_left_full :
  Z.lor (shl_u ss w v w) (shr_u ss w v (sub_int w w)) = v.
Proof.
  rewrite sub_int_small, Z.sub_diag, shr_u_0 by (simpl; lia).
  destruct shl_u_full as [-> | ->]; [apply Z.lor_0_l | apply Z.lor_diag].
Qed.

Lemma wide_right_full :
  Z.lor (shr_u ss w v w) (shl_u ss w v (sub_int w w)) = v.
Proof.
  rewrite sub_int_small, Z.sub_diag, shl_u_0 by (simpl; lia).
  destruct shr_u_full as [-> | ->]; [apply Z.lor_0_l | apply Z.lor_diag].
Qed.
End Wide.

(** *** The reference rotations at the counts 0 and [w] *)
Hypothesis Hw : 0 < w.

Lemma rotl_spec_0 : rotl_spec w v 0 = v.
Proof.
  unfold rotl_spec. rewrite Z.shiftl_0_r, Z.sub_0_r, shiftr_full by lia.
  rewrite Z.lor_0_r. apply to_unsigned_small, Hv.
Qed.

Lemma rotr_spec_0 : rotr_spec w v 0 = v.
Proof.
  unfold rotr_spec. rewrite Z.shiftr_0_r, Z.sub_0_r, to_unsigned_lor by lia.
  rewrite to_unsigned_shiftl_full, Z.lor_0_r by lia.
  apply to_unsigned_small, Hv.
Qed.

Lemma rotl_spec_full : rotl_spec w v w = v.
Proof.
  unfold rotl_spec. rewrite Z.sub_diag, Z.shiftr_0_r, to_unsigned_lor by lia.
  rewrite to_unsigned_shiftl_full, Z.lor_0_l by lia.
  apply to_unsigned_small, Hv.
Qed.

Lemma rotr_spec_full : rotr_spec w v w = v.
Proof.
  unfold rotr_spec. rewrite Z.sub_diag, Z.shiftl_0_r, shiftr_full by lia.
  rewrite Z.lor_0_l. apply to_unsigned_small, Hv.
Qed.
End ShiftForms.

(** ** The bundles against the reference rotations *)

Lemma rotl_intrinsic (w v k : Z) :
  0 < w -> 0 <= v < 2 ^ w -> 0 <= k <= w -> _rotl w v k = rotl_spec w v k.
Proof.
  intros Hw Hv Hk; unfold _rotl; cbv zeta.
  destruct (Z.eq_dec k w) as [-> | Hne].
  - rewrite Z.mod_same by lia. fold (rotl_spec w v 0).
    rewrite rotl_spec_0, rotl_spec_full by lia. reflexivity.
  - rewrite Z.mod_small by lia. reflexivity.
Qed.

Lemma rotr_intrinsic (w v k : Z) :
  0 < w -> 0 <= v < 2 ^ w -> 0 <= k <= w -> _rotr w v k = rotr_spec w v k.
Proof.
  intros Hw Hv Hk; unfold _rotr; cbv zeta.
  destruct (Z.eq_dec k w) as [-> | Hne].
  - rewrite Z.mod_same by lia. fold (rotr_spec w v 0).
    rewrite rotr_spec_0, rotr_spec_full by lia. reflexivity.
  - rewrite Z.mod_small by lia. reflexivity.
Qed.

Lemma wide_left (ss : ShiftSem) (w v k : Z) :
  0 < w <= 64 -> 0 <= v < 2 ^ w -> 0 <= k <= w ->
  Z.lor (shl_u ss w v k) (shr_u ss w v (sub_int w k)) = rotl_spec w v k.
Proof.
  intros Hw Hv Hk.
  destruct (Z.eq_dec k 0) as [-> | H0];
    [rewrite wide_left_0, rotl_spec_0 by lia; reflexivity|].
  destruct (Z.eq_dec k w) as [-> | H1];
    [rewrite wide_left_full, rotl_spec_full by lia; reflexivity|].
  apply wide_left_mid; lia.
Qed.

Lemma wide_right (ss : ShiftSem) (w v k : Z) :
  0 < w <= 64 -> 0 <= v < 2 ^ w -> 0 <= k <= w ->
  Z.lor (shr_u ss w v k) (shl_u ss w v (sub_int w k)) = rotr_spec w v k.
Proof.
  intros Hw Hv Hk.
  destruct (Z.eq_dec k 0) as [-> | H0];
    [rewrite wide_right_0, rotr_spec_0 by lia; reflexivity|].
  destruct (Z.eq_dec k w) as [-> | H1];
    [rewrite wide_right_full, rotr_spec_full by lia; reflexivity|].
  apply wide_right_mid; lia.
Qed.

(** Every bundle, under every toolchain and shift behaviour, computes the
    reference rotation for a count between 0 and the width. *)
Lemma _rotateBitsLeftImpl_spec tc ss bc (u k : Z) :
  0 <= u < 2 ^ bit_width bc -> 0 <= k <= bit_width bc ->
  _rotateBitsLeftImpl tc ss bc u k = rotl_spec (bit_width bc) u k.
Proof.
  destruct bc; simpl _rotateBitsLeftImpl;
    [change (bit_width B1) with 8 | change (bit_width B2) with 16
    | change (bit_width B4) with 32 | change (bit_width B8) with 64];
    intros Hu Hk.
  - apply promoted_left_mid; lia.
  - apply promoted_left_mid; lia.
  - destruct tc; simpl;
      [apply rotl_intrinsic | apply wide_left | apply wide_left]; lia.
  - destruct tc; simpl;
      [apply rotl_intrinsic | apply wide_left | apply wide_left]; lia.
Qed.

Lemma _rotateBitsRightImpl_spec tc ss bc (u k : Z) :
  0 <= u < 2 ^ bit_width bc -> 0 <= k <= bit_width bc ->
  _rotateBitsRightImpl tc ss bc u k = rotr_spec (bit_width bc) u k.
Proof.
  destruct bc; simpl _rotateBitsRightImpl;
    [change (bit_width B1) with 8 | change (bit_width B2) with 16
    | change (bit_width B4) with 32 | change (bit_width B8) with 64];
    intros Hu Hk.
  - apply promoted_right_mid; lia.
  - apply promoted_right_mid; lia.
  - destruct tc; simpl;
      [apply rotr_intrinsic | apply wide_right | apply wide_right]; lia.
  - destruct tc; simpl;
      [apply rotr_intrinsic | apply wide_right | apply wide_right]; lia.
Qed.

Lemma rotateBitsLeft_spec tc ss T (v k : Z) :
  0 <= k <= bit_width (int_size T) ->
  rotateBitsLeft tc ss T v k =
  convert T (rotl_spec (bit_width (int_size T))
                       (to_unsigned (bit_width (int_size T)) v) k).
Proof.
  intros Hk; unfold rotateBitsLeft; cbv zeta. f_equal.
  pose proof (bit_width_pos (int_size T)).
  apply _rotateBitsLeftImpl_spec; [apply to_unsigned_range|]; lia.
Qed.

Lemma rotateBitsRight_spec tc ss T (v k : Z) :
  0 <= k <= bit_width (int_size T) ->
  rotateBitsRight tc ss T v k =
  convert T (rotr_spec (bit_width (int_size T))
                       (to_unsigned (bit_width (int_size T)) v) k).
Proof.
  intros Hk; unfold rotateBitsRight; cbv zeta. f_equal.
  pose proof (bit_width_pos (int_size T)).
  apply _rotateBitsRightImpl_spec; [apply to_unsigned_range|]; lia.
Qed.

(** Rotation by 0 or by the full width returns the value. *)
Lemma rotate_trivial tc ss T (v k : Z) :
  in_range T v -> k = 0 \/ k = bit_width (int_size T) ->
  rotateBitsLeft tc ss T v k = v /\ rotateBitsRight tc ss T v k = v.
Proof.
  intros Hv Hk. pose proof (bit_width_pos (int_size T)) as Hw.
  rewrite rotateBitsLeft_spec, rotateBitsRight_spec by lia.
  pose proof (to_unsigned_range (bit_width (int_size T)) v ltac:(lia)) as Hu.
  destruct Hk as [-> | ->].
  - rewrite rotl_spec_0, rotr_spec_0 by lia.
    split; apply convert_to_unsigned, Hv.
  - rewrite rotl_spec_full, rotr_spec_full by lia.
    split; apply convert_to_unsigned, Hv.
Qed.

(** ** Byte sequences *)

Lemma bytes_of_length (n : nat) (v : Z) : length (bytes_of n v) = n.
Proof. revert v; induction n; intros; simpl; auto. Qed.

Lemma bytes_of_bytes (n : nat) (v : Z) : Forall is_byte (bytes_of n v).
Proof.
  revert v; induction n; intros; simpl; constructor; auto.
  apply Z.mod_pos_bound; lia.
Qed.

Lemma of_bytes_range (l : list Z) :
  Forall is_byte l -> 0 <= of_bytes l < 256 ^ Z.of_nat (length l).
Proof.
  induction 1 as [|b l Hb Hl IH]; [simpl; lia|].
  cbn [of_bytes length]. rewrite Nat2Z.inj_succ, Z.pow_succ_r by lia.
  unfold is_byte in Hb; lia.
Qed.

Lemma of_bytes_bytes_of (n : nat) (v : Z) :
  0 <= v < 256 ^ Z.of_nat n -> of_bytes (bytes_of n v) = v.
Proof.
  revert v; induction n; intros v Hv.
  - simpl in *; lia.
  - rewrite Nat2Z.inj_succ, Z.pow_succ_r in Hv by lia.
    cbn [bytes_of of_bytes]. rewrite IHn.
    + symmetry; rewrite Z.add_comm; apply Z.div_mod; lia.
    + split; [apply Z.div_pos; lia|].
      apply Z.div_lt_upper_bound; lia.
Qed.

Lemma bytes_of_of_bytes (l : list Z) :
  Forall is_byte l -> bytes_of (length l) (of_bytes l) = l.
Proof.
  induction 1 as [|b l Hb Hl IH]; [reflexivity|].
  unfold is_byte in Hb. cbn [of_bytes length bytes_of]. f_equal.
  - rewrite Z.mul_comm, Z.mod_add by lia. apply Z.mod_small; lia.
  - rewrite Z.mul_comm, Z.div_add by lia.
    rewrite Z.div_small by lia. apply IH.
Qed.

Lemma byteswap_range (n : nat) (v : Z) :
  0 <= byteswap n v < 256 ^ Z.of_nat n.
Proof.
  unfold byteswap.
  pose proof (of_bytes_range (rev (bytes_of n v))
                (Forall_rev (bytes_of_bytes n v))) as H.
  rewrite length_rev, bytes_of_length in H. exact H.
Qed.

(** Reversing the bytes twice restores the value. *)
Lemma byteswap_involutive (n : nat) (v : Z) :
  0 <= v < 256 ^ Z.of_nat n -> byteswap n (byteswap n v) = v.
Proof.
  intros Hv; unfold byteswap.
  replace n with (length (rev (bytes_of n v))) at 1
    by (rewrite length_rev; apply bytes_of_length).
  rewrite bytes_of_of_bytes by apply Forall_rev, bytes_of_bytes.
  rewrite rev_involutive. apply of_bytes_bytes_of, Hv.
Qed.

(** ** The shift-and-mask byte swap *)

Ltac decide_cmp :=
  repeat match goal with
  | |- context [?a <=? ?b] =>
      first [ rewrite (proj2 (Z.leb_le a b)) by lia
            | rewrite (proj2 (Z.leb_gt a b)) by lia ]
  | |- context [?a <? ?b] =>
      first [ rewrite (proj2 (Z.ltb_lt a b)) by lia
            | rewrite (proj2 (Z.ltb_ge a b)) by lia ]
  end.

(** Bits of a value masked to the byte that starts at bit [s]. *)
Lemma testbit_mask (u s j : Z) :
  0 <= s ->
  Z.testbit (Z.land u (Z.shiftl (Z.ones 8) s)) j =
  (s <=? j) && (j <? s + 8) && Z.testbit u j.
Proof.
  intros Hs. rewrite Z.land_spec.
  destruct (Z.lt_ge_cases j 0) as [Hj | Hj].
  - rewrite !(Z.testbit_neg_r _ j) by lia. decide_cmp. reflexivity.
  - rewrite Z.shiftl_spec, Z.testbit_ones by lia.
    destruct (Z.lt_ge_cases j s); [|destruct (Z.lt_ge_cases j (s + 8))];
      decide_cmp; cbn [andb]; auto using andb_false_r, andb_true_r.
Qed.

Lemma testbit_shl_mask (ss : ShiftSem) (w u s t i : Z) :
  0 <= s -> 0 <= t < w -> 0 <= i ->
  Z.testbit (shl_u ss w (Z.land u (Z.shiftl (Z.ones 8) s)) t) i =
  (i <? w) && ((s + t <=? i) && (i <? s + t + 8) && Z.testbit u (i - t)).
Proof.
  intros Hs Ht Hi; unfold shl_u, to_unsigned.
  rewrite shift_count_small, Z.testbit_mod_pow2, Z.shiftl_spec, testbit_mask
    by lia.
  f_equal. f_equal. f_equal.
  - apply eq_true_iff_eq; rewrite !Z.leb_le; lia.
  - apply eq_true_iff_eq; rewrite !Z.ltb_lt; lia.
Qed.

Lemma testbit_shr_mask (ss : ShiftSem) (w u s t i : Z) :
  0 <= s -> 0 <= t < w -> 0 <= i ->
  Z.testbit (shr_u ss w (Z.land u (Z.shiftl (Z.ones 8) s)) t) i =
  (s - t <=? i) && (i <? s - t + 8) && Z.testbit u (i + t).
Proof.
  intros Hs Ht Hi; unfold shr_u.
  rewrite shift_count_small, Z.shiftr_spec, testbit_mask by lia.
  f_equal. f_equal.
  - apply eq_true_iff_eq; rewrite !Z.leb_le; lia.
  - apply eq_true_iff_eq; rewrite !Z.ltb_lt; lia.
Qed.

Lemma swap_index_involutive (n i : Z) :
  0 <= i < 8 * n -> swap_index n (swap_index n i) = i.
Proof.
  intros Hi; unfold swap_index. Z.div_mod_to_equations. lia.
Qed.

Lemma swap_index_range (n i : Z) :
  0 <= i < 8 * n -> 0 <= swap_index n i < 8 * n.
Proof.
  intros Hi; unfold swap_index. Z.div_mod_to_equations. lia.
Qed.

Lemma below_pow2_by_bits (w x : Z) :
  0 <= w -> 0 <= x ->
  (forall i, w <= i -> Z.testbit x i = false) -> x < 2 ^ w.
Proof.
  intros Hw Hx H.
  assert (E : x mod 2 ^ w = x).
  { apply Z.bits_inj'; intros i Hi. rewrite Z.testbit_mod_pow2 by lia.
    destruct (Z.ltb_spec i w); [reflexivity|]. rewrite H by lia. reflexivity. }
  rewrite <- E. apply Z.mod_pos_bound, pow2_pos; lia.
Qed.

(** A function that moves every bit to its mirrored byte is an involution
    on the values of [n] bytes. *)
Section BitSwap.
Variable n : Z.
Variable f : Z -> Z.
Hypothesis Hn : 0 < n.
Hypothesis f_bits : forall u i, 0 <= i ->
  Z.testbit (f u) i = (i <? 8 * n) && Z.testbit u (swap_index n i).
Hypothesis f_nonneg : forall u, 0 <= f u.

Lemma bit_swap_range (u : Z) : 0 <= f u < 2 ^ (8 * n).
Proof.
  split; [apply f_nonneg|].
  apply below_pow2_by_bits; try lia; [apply f_nonneg|].
  intros i Hi. rewrite f_bits by lia. decide_cmp. reflexivity.
Qed.

Lemma bit_swap_involutive (u : Z) :
  0 <= u < 2 ^ (8 * n) -> f (f u) = u.
Proof.
  intros Hu. apply (eq_by_low_bits (8 * n)); try lia.
  - apply bit_swap_range.
  - intros i Hi. pose proof (swap_index_range n i Hi).
    rewrite !f_bits by lia. decide_cmp. cbn [andb].
    rewrite swap_index_involutive by lia. reflexivity.
Qed.
End BitSwap.

Ltac byte_cases i n :=
  let rec go k :=
    lazymatch eval cbv in (k <? n) with
    | true =>
        let H := fresh "Hb" in
        destruct (Z.lt_ge_cases i (8 * (k + 1))) as [H | H];
        [ | go ltac:(eval cbv in (k + 1)) ]
    | false => idtac
    end in
  go 0.

Ltac finish_byte_case :=
  decide_cmp; cbn [andb orb]; rewrite ?orb_false_r; try reflexivity;
  f_equal; Z.div_mod_to_equations; lia.

Lemma fallback2_bits (ss : ShiftSem) (u i : Z) :
  0 <= i ->
  Z.testbit (IntOpImpl2._invertByteOrderImpl OtherCompiler ss u) i =
  (i <? 8 * 2) && Z.testbit u (swap_index 2 i).
Proof.
  intros Hi. unfold IntOpImpl2._invertByteOrderImpl, shl_int, shr_int.
  rewrite to_unsigned_lor, to_unsigned_to_signed by lia.
  rewrite !shift_count_small by lia.
  change 0xff with (Z.shiftl (Z.ones 8) 0).
  change 0xff00 with (Z.shiftl (Z.ones 8) 8).
  unfold to_unsigned.
  rewrite Z.lor_spec, !Z.testbit_mod_pow2, Z.shiftl_spec, Z.shiftr_spec,
    !testbit_mask by lia.
  unfold swap_index. byte_cases i 2; finish_byte_case.
Qed.

Lemma fallback4_bits (ss : ShiftSem) (u i : Z) :
  0 <= i ->
  Z.testbit (IntOpImpl4._invertByteOrderImpl OtherCompiler ss u) i =
  (i <? 8 * 4) && Z.testbit u (swap_index 4 i).
Proof.
  intros Hi. unfold IntOpImpl4._invertByteOrderImpl.
  change 0xff with (Z.shiftl (Z.ones 8) 0).
  change 0xff00 with (Z.shiftl (Z.ones 8) 8).
  change 0xff0000 with (Z.shiftl (Z.ones 8) 16).
  change 0xff000000 with (Z.shiftl (Z.ones 8) 24).
  rewrite !Z.lor_spec, !testbit_shl_mask, !testbit_shr_mask by lia.
  unfold swap_index. byte_cases i 4; finish_byte_case.
Qed.

Lemma fallback8_bits (ss : ShiftSem) (u i : Z) :
  0 <= i ->
  Z.testbit (IntOpImpl8._invertByteOrderImpl OtherCompiler ss u) i =
  (i <? 8 * 8) && Z.testbit u (swap_index 8 i).
Proof.
  intros Hi. unfold IntOpImpl8._invertByteOrderImpl.
  change 0xff with (Z.shiftl (Z.ones 8) 0).
  change 0xff00 with (Z.shiftl (Z.ones 8) 8).
  change 0xff0000 with (Z.shiftl (Z.ones 8) 16).
  change 0xff000000 with (Z.shiftl (Z.ones 8) 24).
  change 0xff00000000 with (Z.shiftl (Z.ones 8) 32).
  change 0xff0000000000 with (Z.shiftl (Z.ones 8) 40).
  change 0xff000000000000 with (Z.shiftl (Z.ones 8) 48).
  change 0xff00000000000000 with (Z.shiftl (Z.ones 8) 56).
  rewrite !Z.lor_spec, !testbit_shl_mask, !testbit_shr_mask by lia.
  unfold swap_index. byte_cases i 8; finish_byte_case.
Qed.

Lemma shl_u_nonneg (ss : ShiftSem) (w v k : Z) : 0 <= w -> 0 <= shl_u ss w v k.
Proof. intros; apply to_unsigned_range; lia. Qed.

Lemma shr_u_mask_nonneg (ss : ShiftSem) (w v m k : Z) :
  0 <= m -> 0 <= shr_u ss w (Z.land v m) k.
Proof.
  intros; unfold shr_u. apply Z.shiftr_nonneg, Z.land_nonneg; auto.
Qed.

Lemma fallback2_nonneg (ss : ShiftSem) (u : Z) :
  0 <= IntOpImpl2._invertByteOrderImpl OtherCompiler ss u.
Proof. apply to_unsigned_range; lia. Qed.

Lemma fallback4_nonneg (ss : ShiftSem) (u : Z) :
  0 <= IntOpImpl4._invertByteOrderImpl OtherCompiler ss u.
Proof.
  unfold IntOpImpl4._invertByteOrderImpl.
  repeat (apply Z.lor_nonneg; split);
    (apply shl_u_nonneg || apply shr_u_mask_nonneg); lia.
Qed.

Lemma fallback8_nonneg (ss : ShiftSem) (u : Z) :
  0 <= IntOpImpl8._invertByteOrderImpl OtherCompiler ss u.
Proof.
  unfold IntOpImpl8._invertByteOrderImpl.
  repeat (apply Z.lor_nonneg; split);
    (apply shl_u_nonneg || apply shr_u_mask_nonneg); lia.
Qed.

(** ** The byte swap of every bundle *)

Lemma _invertByteOrderImpl_range tc ss bc (u : Z) :
  0 <= u < 2 ^ bit_width bc ->
  0 <= _invertByteOrderImpl tc ss bc u < 2 ^ bit_width bc.
Proof.
  intros Hu; destruct bc; cbn [_invertByteOrderImpl].
  - exact Hu.
  - destruct tc; [apply (byteswap_range 2) | apply (byteswap_range 2) |].
    apply (bit_swap_range 2 (IntOpImpl2._invertByteOrderImpl OtherCompiler ss));
      [lia | apply fallback2_bits | apply fallback2_nonneg].
  - destruct tc; [apply (byteswap_range 4) | apply (byteswap_range 4) |].
    apply (bit_swap_range 4 (IntOpImpl4._invertByteOrderImpl OtherCompiler ss));
      [lia | apply fallback4_bits | apply fallback4_nonneg].
  - destruct tc; [apply (byteswap_range 8) | apply (byteswap_range 8) |].
    apply (bit_swap_range 8 (IntOpImpl8._invertByteOrderImpl OtherCompiler ss));
      [lia | apply fallback8_bits | apply fallback8_nonneg].
Qed.

Lemma _invertByteOrderImpl_involutive tc ss bc (u : Z) :
  0 <= u < 2 ^ bit_width bc ->
  _invertByteOrderImpl tc ss bc (_invertByteOrderImpl tc ss bc u) = u.
Proof.
  intros Hu; destruct bc; cbn [_invertByteOrderImpl].
  - reflexivity.
  - destruct tc;
      [apply (byteswap_involutive 2), Hu | apply (byteswap_involutive 2), Hu |].
    apply (bit_swap_involutive 2 (IntOpImpl2._invertByteOrderImpl OtherCompiler ss));
      [lia | apply fallback2_bits | apply fallback2_nonneg | apply Hu].
  - destruct tc;
      [apply (byteswap_involutive 4), Hu | apply (byteswap_involutive 4), Hu |].
    apply (bit_swap_involutive 4 (IntOpImpl4._invertByteOrderImpl OtherCompiler ss));
      [lia | apply fallback4_bits | apply fallback4_nonneg | apply Hu].
  - destruct tc;
      [apply (byteswap_involutive 8), Hu | apply (byteswap_involutive 8), Hu |].
    apply (bit_swap_involutive 8 (IntOpImpl8._invertByteOrderImpl OtherCompiler ss));
      [lia | apply fallback8_bits | apply fallback8_nonneg | apply Hu].
Qed.

(** ** Agreement of the three byte-swap branches *)

Lemma testbit_byte_cons (b x i : Z) :
  is_byte b -> 0 <= i ->
  Z.testbit (b + 256 * x) i =
  if i <? 8 then Z.testbit b i else Z.testbit x (i - 8).
Proof.
  intros Hb Hi. unfold is_byte in Hb. destruct (Z.ltb_spec i 8).
  - rewrite <- (Z.mod_pow2_bits_low (b + 256 * x) 8 i) by lia.
    change (2 ^ 8) with 256.
    rewrite Z.mul_comm, Z.mod_add, Z.mod_small by lia. reflexivity.
  - replace i with (i - 8 + 8) at 1 by lia.
    rewrite <- Z.div_pow2_bits by lia. change (2 ^ 8) with 256.
    rewrite Z.mul_comm, Z.div_add, Z.div_small by lia. reflexivity.
Qed.

Lemma of_bytes_bits (l : list Z) (i : Z) :
  Forall is_byte l -> 0 <= i ->
  Z.testbit (of_bytes l) i =
  Z.testbit (nth (Z.to_nat (i / 8)) l 0) (i mod 8).
Proof.
  intros Hl; revert i; induction Hl as [|b l Hb Hl IH]; intros i Hi.
  - cbn [of_bytes]. destruct (Z.to_nat (i / 8)); cbn [nth];
      rewrite !Z.bits_0; reflexivity.
  - cbn [of_bytes]. rewrite testbit_byte_cons by auto.
    destruct (Z.ltb_spec i 8).
    + rewrite Z.div_small, Z.mod_small by lia. reflexivity.
    + rewrite IH by lia.
      replace (Z.to_nat (i / 8)) with (S (Z.to_nat ((i - 8) / 8)))
        by (Z.div_mod_to_equations; lia).
      cbn [nth]. f_equal. Z.div_mod_to_equations; lia.
Qed.

Lemma nth_bytes_of (n j : nat) (v : Z) :
  (j < n)%nat -> nth j (bytes_of n v) 0 = (v / 256 ^ Z.of_nat j) mod 256.
Proof.
  revert j v; induction n; intros j v Hj; [lia|].
  destruct j; cbn [bytes_of nth].
  - rewrite Z.pow_0_r, Z.div_1_r. reflexivity.
  - rewrite IHn by lia. rewrite Nat2Z.inj_succ, Z.pow_succ_r by lia.
    rewrite Z.div_div by lia. reflexivity.
Qed.

Lemma byteswap_bits (n : nat) (v i : Z) :
  0 <= i ->
  Z.testbit (byteswap n v) i =
  (i <? 8 * Z.of_nat n) && Z.testbit v (swap_index (Z.of_nat n) i).
Proof.
  intros Hi. destruct (Z.ltb_spec i (8 * Z.of_nat n)); cbn [andb].
  - unfold byteswap.
    rewrite of_bytes_bits by (auto using Forall_rev, bytes_of_bytes).
    assert (Hq : (Z.to_nat (i / 8) < n)%nat) by (Z.div_mod_to_equations; lia).
    rewrite rev_nth by (rewrite bytes_of_length; exact Hq).
    rewrite bytes_of_length, nth_bytes_of by lia.
    assert (Hr : 0 <= i mod 8 < 8) by (apply Z.mod_pos_bound; lia).
    change 256 with (2 ^ 8). rewrite <- Z.pow_mul_r by lia.
    rewrite Z.mod_pow2_bits_low, Z.div_pow2_bits by lia.
    f_equal. unfold swap_index. Z.div_mod_to_equations; lia.
  - apply (testbit_above (8 * Z.of_nat n)); [|lia].
    pose proof (byteswap_range n v) as Hb.
    change 256 with (2 ^ 8) in Hb. rewrite <- Z.pow_mul_r in Hb by lia. exact Hb.
Qed.

(** The shift-and-mask branch computes the same value as the byte-swap
    intrinsics. *)
Lemma fallback_is_byteswap tc ss bc (u : Z) :
  0 <= u < 2 ^ bit_width bc ->
  _invertByteOrderImpl OtherCompiler ss bc u = _invertByteOrderImpl tc ss bc u.
Proof.
  intros Hu.
  apply (eq_by_low_bits (bit_width bc));
    try (apply _invertByteOrderImpl_range; exact Hu);
    [pose proof (bit_width_pos bc); lia|].
  intros i Hi. destruct tc; try reflexivity; destruct bc; try reflexivity;
    cbn [_invertByteOrderImpl];
    rewrite ?fallback2_bits, ?fallback4_bits, ?fallback8_bits by lia;
    [ change (IntOpImpl2._invertByteOrderImpl MSC_VER ss u) with (byteswap 2 u)
    | change (IntOpImpl4._invertByteOrderImpl MSC_VER ss u) with (byteswap 4 u)
    | change (IntOpImpl8._invertByteOrderImpl MSC_VER ss u) with (byteswap 8 u)
    | change (IntOpImpl2._invertByteOrderImpl GNUC ss u) with (byteswap 2 u)
    | change (IntOpImpl4._invertByteOrderImpl GNUC ss u) with (byteswap 4 u)
    | change (IntOpImpl8._invertByteOrderImpl GNUC ss u) with (byteswap 8 u) ];
    rewrite byteswap_bits by lia; reflexivity.
Qed.

(** ** Conversion of an integer to [double]

    The rounding of an integer below [2 ^ 64] in magnitude never overflows
    the exponent range of [double], so the result is a finite number. *)

Lemma digits2_pos_lower (p : positive) :
  2 ^ (Zpos (digits2_pos p) - 1) <= Zpos p.
Proof.
  induction p; cbn [digits2_pos]; rewrite ?Pos2Z.inj_succ;
    try (replace (Z.succ (Zpos (digits2_pos p)) - 1)
           with (Z.succ (Zpos (digits2_pos p) - 1)) by lia;
         rewrite Z.pow_succ_r by lia; lia).
  simpl; lia.
Qed.

Lemma Zdigits2_bound (m D : Z) : 0 <= D -> 0 <= m < 2 ^ D -> Zdigits2 m <= D.
Proof.
  intros HD Hm. destruct m as [|p|p]; simpl; try lia.
  pose proof (digits2_pos_lower p) as Hp.
  destruct (Z.le_gt_cases (Zpos (digits2_pos p)) D) as [|Hgt]; auto.
  assert (2 ^ D <= 2 ^ (Zpos (digits2_pos p) - 1))
    by (apply Z.pow_le_mono_r; lia).
  lia.
Qed.

Lemma shr_1_mantissa (mrs : shr_record) :
  0 <= shr_m mrs -> 0 <= shr_m (shr_1 mrs) <= shr_m mrs.
Proof.
  destruct mrs as [m r s]; simpl. destruct m as [|[p|p|]|p]; simpl; lia.
Qed.

Lemma iter_pos_invariant {A : Type} (P : A -> Prop) (f : A -> A) :
  (forall x, P x -> P (f x)) -> forall p x, P x -> P (iter_pos f p x).
Proof.
  intros Hf; induction p; intros x Hx; simpl; auto.
Qed.

Lemma shr_mantissa (mrs : shr_record) (e n M : Z) :
  0 <= shr_m mrs <= M ->
  0 <= shr_m (fst (shr mrs e n)) <= M /\ snd (shr mrs e n) = e + Z.max 0 n.
Proof.
  intros Hm; unfold shr; destruct n as [|p|p]; simpl; try lia.
  split; [|lia].
  apply (iter_pos_invariant (fun x => 0 <= shr_m x <= M)); auto.
  intros x Hx. pose proof (shr_1_mantissa x). lia.
Qed.

Lemma shr_record_of_loc_m (m : Z) (l : location) :
  shr_m (shr_record_of_loc m l) = m.
Proof. destruct l as [|[]]; reflexivity. Qed.

Lemma shr_fexp_double (m e M D : Z) (l : location) :
  0 <= m <= M -> Zdigits2 m <= D ->
  0 <= shr_m (fst (shr_fexp 53 1024 m e l)) <= M /\
  snd (shr_fexp 53 1024 m e l) <= Z.max e (Z.max (D + e - 53) (-1074)).
Proof.
  intros Hm Hd; unfold shr_fexp.
  destruct (shr_mantissa (shr_record_of_loc m l) e
              (fexp 53 1024 (Zdigits2 m + e) - e) M) as [H1 H2].
  { rewrite shr_record_of_loc_m; lia. }
  split; [exact H1|]. rewrite H2. unfold fexp, emin. lia.
Qed.

Lemma round_nearest_even_range (m : Z) (l : location) :
  0 <= m -> 0 <= round_nearest_even m l <= m + 1.
Proof.
  intros; unfold round_nearest_even. destruct l as [|[]]; try lia.
  destruct (Z.even m); lia.
Qed.

Lemma binary_round_aux_double (sx : bool) (m e : Z) :
  0 <= m < 2 ^ 64 -> e <= 0 ->
  fp_isfinite (binary_round_aux 53 1024 sx m e loc_Exact) = true.
Proof.
  intros Hm He; unfold binary_round_aux.
  destruct (shr_fexp_double m e (2 ^ 64 - 1) 64 loc_Exact) as [H1 H2];
    [lia | apply Zdigits2_bound; lia |].
  destruct (shr_fexp 53 1024 m e loc_Exact) as [mrs' e']; cbn [fst snd] in H1, H2.
  pose proof (round_nearest_even_range (shr_m mrs') (loc_of_shr_record mrs')
                ltac:(lia)) as Hr.
  set (m2 := round_nearest_even (shr_m mrs') (loc_of_shr_record mrs')) in *.
  destruct (shr_fexp_double m2 e' (2 ^ 64) 65 loc_Exact) as [H3 H4];
    [lia | apply Zdigits2_bound; lia |].
  destruct (shr_fexp 53 1024 m2 e' loc_Exact) as [mrs'' e'']; cbn [fst snd] in H3, H4.
  destruct (shr_m mrs'') as [|p|p]; [reflexivity | | lia].
  change (1024 - 53) with 971.
  destruct (Z.leb_spec e'' 971); [reflexivity | lia].
Qed.

Lemma pos_iter_xO (m p : positive) :
  Zpos (Pos.iter xO m p) = Zpos m * 2 ^ Zpos p.
Proof.
  induction p using Pos.peano_ind.
  - simpl. lia.
  - rewrite Pos.iter_succ, Pos2Z.inj_xO, IHp, Pos2Z.inj_succ, Z.pow_succ_r by lia.
    ring.
Qed.

Lemma digits2_pos_upper (p : positive) : Zpos p < 2 ^ Zpos (digits2_pos p).
Proof.
  induction p; cbn [digits2_pos]; rewrite ?Pos2Z.inj_succ, ?Z.pow_succ_r by lia;
    lia.
Qed.

Lemma binary_round_double (sx : bool) (m : positive) :
  Zpos m < 2 ^ 64 -> fp_isfinite (binary_round 53 1024 sx m 0) = true.
Proof.
  intros Hm; unfold binary_round, shl_align.
  pose proof (Zdigits2_bound (Zpos m) 64 ltac:(lia) ltac:(lia)) as Hd.
  cbn [Zdigits2] in Hd.
  pose proof (digits2_pos_upper m) as Hu.
  set (d := Zpos (digits2_pos m)) in *.
  assert (Hf : fexp 53 1024 (d + 0) = d - 53) by (unfold fexp, emin; lia).
  rewrite Hf.
  destruct (d - 53 - 0) as [|q|q] eqn:Eq;
    try (apply binary_round_aux_double; lia).
  apply binary_round_aux_double; [|lia].
  rewrite pos_iter_xO. split; [lia|].
  assert (Zpos m * 2 ^ Zpos q < 2 ^ d * 2 ^ Zpos q)
    by (apply Z.mul_lt_mono_pos_r; [apply pow2_pos|]; lia).
  rewrite <- Z.pow_add_r in H by lia.
  assert (2 ^ (d + Zpos q) <= 2 ^ 64) by (apply Z.pow_le_mono_r; lia).
  lia.
Qed.

Lemma double_of_int_finite (v : Z) :
  - 2 ^ 64 < v < 2 ^ 64 -> fp_isfinite (double_of_int v) = true.
Proof.
  intros Hv; unfold double_of_int, binary_normalize.
  destruct v as [|p|p]; [reflexivity | |]; apply binary_round_double; lia.
Qed.

Lemma fp_isfinite_not_nan (x : spec_float) :
  fp_isfinite x = true -> fp_isnan x = false.
Proof. destruct x; simpl; congruence. Qed.

Lemma in_range_below_64 (IT : IntType) (v : Z) :
  in_range IT v -> - 2 ^ 64 < v < 2 ^ 64.
Proof.
  unfold in_range. pose proof (bit_width_cases (int_size IT)) as Hw.
  assert (H7 : 2 ^ 7 < 2 ^ 64) by reflexivity.
  assert (H8 : 2 ^ 8 < 2 ^ 64) by reflexivity.
  assert (H15 : 2 ^ 15 < 2 ^ 64) by reflexivity.
  assert (H16 : 2 ^ 16 < 2 ^ 64) by reflexivity.
  assert (H31 : 2 ^ 31 < 2 ^ 64) by reflexivity.
  assert (H32 : 2 ^ 32 < 2 ^ 64) by reflexivity.
  assert (H63 : 2 ^ 63 < 2 ^ 64) by reflexivity.
  destruct Hw as [-> | [-> | [-> | ->]]]; destruct (int_signed IT);
    [change (8 - 1) with 7 | | change (16 - 1) with 15 |
    | change (32 - 1) with 31 | | change (64 - 1) with 63 | ]; lia.
Qed.

(** Equality of a floating-point value with itself fails exactly for NaN. *)
Lemma SFeqb_refl (x : spec_float) : SFeqb x x = negb (fp_isnan x).
Proof.
  unfold SFeqb; destruct x as [s|s| |s m e]; simpl; auto.
  - destruct s; reflexivity.
  - rewrite Z.compare_refl, Pos.compare_cont_refl. destruct s; reflexivity.
Qed.

(** * The specification's properties *)

(** C1. For every integer type [T] of 8, 16, 32 or 64 bits (the unsigned
    types of the claim, and the signed ones as well), every value [v] of
    [T] and every count [k] with [0 <= k < bit-width(T)], rotating left by
    [k] and then right by [k] returns [v], and so does rotating right and
    then left.  This holds under every toolchain branch and under either
    result of a full-width shift. *)
Theorem rotate_roundtrip tc ss (T : IntType) (v k : Z) :
  in_range T v -> 0 <= k < bit_width (int_size T) ->
  rotateBitsRight tc ss T (rotateBitsLeft tc ss T v k) k = v /\
  rotateBitsLeft tc ss T (rotateBitsRight tc ss T v k) k = v.
Proof.
  intros Hv Hk. pose proof (bit_width_pos (int_size T)) as Hw.
  pose proof (to_unsigned_range (bit_width (int_size T)) v ltac:(lia)) as Hu.
  rewrite !rotateBitsRight_spec, !rotateBitsLeft_spec by lia.
  rewrite !to_unsigned_convert
    by (apply rotl_spec_range || apply rotr_spec_range; lia).
  destruct (Z.eq_dec k 0) as [-> | Hne].
  - rewrite rotl_spec_0, rotr_spec_0, rotl_spec_0 by lia.
    split; apply convert_to_unsigned, Hv.
  - rewrite rotr_rotl_spec, rotl_rotr_spec by lia.
    split; apply convert_to_unsigned, Hv.
Qed.

Lemma rotate_roundtrip_witness :
  rotateBitsRight GNUC ShiftMasked (uintN B4)
    (rotateBitsLeft GNUC ShiftMasked (uintN B4) 0xDEADBEEF 7) 7 = 0xDEADBEEF /\
  rotateBitsLeft GNUC ShiftMasked (uintN B4)
    (rotateBitsRight GNUC ShiftMasked (uintN B4) 0xDEADBEEF 7) 7 = 0xDEADBEEF.
Proof.
  apply (rotate_roundtrip GNUC ShiftMasked (uintN B4) 0xDEADBEEF 7).
  - apply in_rangeb_spec; reflexivity.
  - cbn; lia.
Defined.

(** C2. For every integer type [T] of 1, 2, 4 or 8 bytes and every value
    [v] of [T], inverting the byte order twice returns [v]; for a 1-byte
    type, signed or unsigned, a single inversion already returns its
    argument [b]. *)
Theorem invertByteOrder_involutive tc ss (T : IntType) (v : Z)
    (sg : bool) (b : Z) :
  in_range T v ->
  in_range {| int_size := B1; int_signed := sg |} b ->
  invertByteOrder tc ss T (invertByteOrder tc ss T v) = v /\
  invertByteOrder tc ss {| int_size := B1; int_signed := sg |} b = b.
Proof.
  intros Hv Hb. pose proof (bit_width_pos (int_size T)) as Hw.
  pose proof (to_unsigned_range (bit_width (int_size T)) v ltac:(lia)) as Hu.
  unfold invertByteOrder; cbv zeta. split.
  - rewrite to_unsigned_convert by (apply _invertByteOrderImpl_range, Hu).
    rewrite _invertByteOrderImpl_involutive by exact Hu.
    apply convert_to_unsigned, Hv.
  - cbn [int_size _invertByteOrderImpl IntOpImpl1._invertByteOrderImpl].
    apply (convert_to_unsigned {| int_size := B1; int_signed := sg |}), Hb.
Qed.

Lemma invertByteOrder_involutive_witness :
  invertByteOrder OtherCompiler ShiftOut (intN B8)
    (invertByteOrder OtherCompiler ShiftOut (intN B8) (-2)) = -2 /\
  invertByteOrder OtherCompiler ShiftOut
    {| int_size := B1; int_signed := false |} 0xAB = 0xAB.
Proof.
  apply (invertByteOrder_involutive OtherCompiler ShiftOut (intN B8) (-2)
           false 0xAB); apply in_rangeb_spec; reflexivity.
Defined.

(** C3. For every integer type [T] and every value [v] of [T], [isNan]
    returns false and [isFinite] returns true, whichever of the two
    configuration macros is set. *)
Theorem integer_isNan_isFinite cfg (IT : IntType) (v : Z) :
  in_range IT v ->
  isNan cfg (Integer IT) v = false /\ isFinite cfg (Integer IT) v = true.
Proof.
  intros Hv. pose proof (double_of_int_finite v (in_range_below_64 IT v Hv)) as Hf.
  unfold isNan, isFinite, MscNumberUtilHelper_.isNan,
    MscNumberUtilHelper_.isFinite; cbn [numeric_limits.is_integer negb].
  cbn [std_isnan std_isfinite].
  destruct (BDN_STD_ISNAN_INT_MISSING cfg), (BDN_STD_ISFINITE_INT_MISSING cfg);
    auto using fp_isfinite_not_nan.
Qed.

Lemma integer_isNan_isFinite_witness :
  isNan {| BDN_STD_ISNAN_INT_MISSING := false;
           BDN_STD_ISFINITE_INT_MISSING := false |}
        (Integer (uintN B8)) 0xFFFFFFFFFFFFFFFF = false /\
  isFinite {| BDN_STD_ISNAN_INT_MISSING := false;
              BDN_STD_ISFINITE_INT_MISSING := false |}
        (Integer (uintN B8)) 0xFFFFFFFFFFFFFFFF = true.
Proof.
  apply (integer_isNan_isFinite _ (uintN B8) 0xFFFFFFFFFFFFFFFF).
  apply in_rangeb_spec; reflexivity.
Defined.

(** C4. For every base type in the published hash set and every value [x],
    the hash of [Number<T>{x}] is the host library's hash of [x]. *)
Theorem hash_Number_eq_hash_value (dm : DataModel)
    (std_hash : forall T : HashedType, carrier (base_type dm T) -> Z)
    (T : HashedType) (x : carrier (base_type dm T)) :
  hash_Number dm std_hash T (Number_ctor x) = std_hash T x.
Proof. destruct T; reflexivity. Qed.

(** C5. The documented values: [invertByteOrder(uint16 0x1234) = 0x3412],
    [invertByteOrder(uint32 0x11223344) = 0x44332211],
    [rotateBitsLeft(uint16 0xF000, 4) = 0x000F] and
    [rotateBitsRight(uint16 0x000F, 4) = 0xF000]. *)
Theorem bit_operation_values tc ss :
  invertByteOrder tc ss (uintN B2) 0x1234 = 0x3412 /\
  invertByteOrder tc ss (uintN B4) 0x11223344 = 0x44332211 /\
  rotateBitsLeft tc ss (uintN B2) 0xF000 4 = 0x000F /\
  rotateBitsRight tc ss (uintN B2) 0x000F 4 = 0xF000.
Proof. destruct tc, ss; vm_compute; repeat split. Qed.

(** C6. Boundary cases: for every width of 1, 2, 4 or 8 bytes and every
    value [v] of that width, rotating left or right by 0 or by the full bit
    width returns [v]; the byte swap of 0 is 0 at every width; the byte
    swap of [0x0102030405060708] at width 8 is [0x0807060504030201]. *)
Theorem bit_operation_boundaries tc ss (T : IntType) (v : Z) :
  in_range T v ->
  rotateBitsLeft tc ss T v 0 = v /\
  rotateBitsRight tc ss T v 0 = v /\
  rotateBitsLeft tc ss T v (bit_width (int_size T)) = v /\
  rotateBitsRight tc ss T v (bit_width (int_size T)) = v /\
  invertByteOrder tc ss T 0 = 0 /\
  invertByteOrder tc ss (uintN B8) 0x0102030405060708 = 0x0807060504030201.
Proof.
  intros Hv.
  destruct (rotate_trivial tc ss T v 0 Hv (or_introl eq_refl)) as [H1 H2].
  destruct (rotate_trivial tc ss T v _ Hv (or_intror eq_refl)) as [H3 H4].
  repeat split; auto.
  - destruct T as [[] []], tc, ss; vm_compute; reflexivity.
  - destruct tc, ss; vm_compute; reflexivity.
Qed.

Lemma bit_operation_boundaries_witness :
  rotateBitsLeft GNUC ShiftOut (uintN B8) 0x8000000000000001 0
    = 0x8000000000000001 /\
  rotateBitsRight GNUC ShiftOut (uintN B8) 0x8000000000000001 0
    = 0x8000000000000001 /\
  rotateBitsLeft GNUC ShiftOut (uintN B8) 0x8000000000000001
    (bit_width (int_size (uintN B8))) = 0x8000000000000001 /\
  rotateBitsRight GNUC ShiftOut (uintN B8) 0x8000000000000001
    (bit_width (int_size (uintN B8))) = 0x8000000000000001 /\
  invertByteOrder GNUC ShiftOut (uintN B8) 0 = 0 /\
  invertByteOrder GNUC ShiftOut (uintN B8) 0x0102030405060708
    = 0x0807060504030201.
Proof.
  apply (bit_operation_boundaries GNUC ShiftOut (uintN B8) 0x8000000000000001).
  apply in_rangeb_spec; reflexivity.
Defined.

(** C7. For every floating-point type [T] and every finite value [v] of
    [T], [isNan(v)] is false and [isFinite(v)] is true; [isNan] of
    [Number<T>::nan()] is true and [isFinite] of [Number<T>::infinity()] is
    false. *)
Theorem floating_isNan_isFinite cfg (F : FloatType) (v : spec_float) :
  is_value (Floating F) v -> finite_value F v ->
  isNan cfg (Floating F) v = false /\
  isFinite cfg (Floating F) v = true /\
  isNan cfg (Floating F) (nan (Floating F)) = true /\
  isFinite cfg (Floating F) (infinity (Floating F)) = false.
Proof.
  intros _ Hf. unfold finite_value in Hf.
  unfold isNan, isFinite, MscNumberUtilHelper_.isNan,
    MscNumberUtilHelper_.isFinite; cbn [numeric_limits.is_integer negb].
  cbn [std_isnan std_isfinite nan infinity numeric_limits.quiet_NaN
       numeric_limits.infinity fp_isnan fp_isfinite].
  assert (Hv : fp_isnan v = false /\ fp_isfinite v = true).
  { destruct v as [s|s| |s m e]; cbn in Hf |- *;
      try destruct s; try discriminate Hf; auto. }
  destruct Hv as [Hn Hfin].
  destruct (BDN_STD_ISNAN_INT_MISSING cfg), (BDN_STD_ISFINITE_INT_MISSING cfg);
    auto.
Qed.

Lemma floating_isNan_isFinite_witness :
  isNan {| BDN_STD_ISNAN_INT_MISSING := true;
           BDN_STD_ISFINITE_INT_MISSING := true |}
        (Floating double) (S754_finite true 6755399441055744 (-52)) = false /\
  isFinite {| BDN_STD_ISNAN_INT_MISSING := true;
              BDN_STD_ISFINITE_INT_MISSING := true |}
        (Floating double) (S754_finite true 6755399441055744 (-52)) = true /\
  isNan {| BDN_STD_ISNAN_INT_MISSING := true;
           BDN_STD_ISFINITE_INT_MISSING := true |}
        (Floating double) (nan (Floating double)) = true /\
  isFinite {| BDN_STD_ISNAN_INT_MISSING := true;
              BDN_STD_ISFINITE_INT_MISSING := true |}
        (Floating double) (infinity (Floating double)) = false.
Proof.
  apply (floating_isNan_isFinite _ double
           (S754_finite true 6755399441055744 (-52))); reflexivity.
Defined.

(** C8, as the code has it.  Each of the six comparison operators of
    [Number<T>{v}] against a raw value [w] gives the result of the built-in
    operator on [v] and [w]; [Number<T>{v} == v] is true exactly when [v]
    is not NaN, that is for every integer [v] and for every floating-point
    [v] other than NaN. *)
Theorem comparison_delegates (T : NumericType) (v w : carrier T) :
  operator_eq (Number_ctor v) v = negb (is_nan T v) /\
  operator_eq (Number_ctor v) w = builtin_eq T v w /\
  operator_ne (Number_ctor v) w = negb (builtin_eq T v w) /\
  operator_lt (Number_ctor v) w = builtin_lt T v w /\
  operator_le (Number_ctor v) w = builtin_le T v w /\
  operator_gt (Number_ctor v) w = builtin_lt T w v /\
  operator_ge (Number_ctor v) w = builtin_le T w v.
Proof.
  repeat split.
  unfold operator_eq; cbn [_value]. destruct T as [IT | F]; cbn.
  - apply Z.eqb_refl.
  - apply SFeqb_refl.
Qed.

(** C8 as stated fails: NaN is a value of [double], and
    [Number<double>{NaN} == NaN] is false. *)
Lemma nan_wrapper_not_equal_to_nan :
  is_value (Floating double) S754_nan /\
  operator_eq (@Number_ctor (Floating double) S754_nan) S754_nan = false.
Proof. split; reflexivity. Qed.

(** The built-in comparisons of an integer type are the order of the
    integers. *)
Lemma integer_comparisons (IT : IntType) (v w : Z) :
  (operator_eq (@Number_ctor (Integer IT) v) w = true <-> v = w) /\
  (operator_ne (@Number_ctor (Integer IT) v) w = true <-> v <> w) /\
  (operator_lt (@Number_ctor (Integer IT) v) w = true <-> v < w) /\
  (operator_le (@Number_ctor (Integer IT) v) w = true <-> v <= w) /\
  (operator_gt (@Number_ctor (Integer IT) v) w = true <-> v > w) /\
  (operator_ge (@Number_ctor (Integer IT) v) w = true <-> v >= w).
Proof.
  unfold operator_eq, operator_ne, operator_lt, operator_le, operator_gt,
    operator_ge, builtin_ne, builtin_gt, builtin_ge; cbn.
  rewrite negb_true_iff, Z.eqb_neq, Z.eqb_eq, !Z.ltb_lt, !Z.leb_le. lia.
Qed.

(** C9. For every integer base type [negativeInfinity()] returns 0, the
    value that [infinity()] returns; for every floating-point base type
    they return the negative and the positive IEEE infinity. *)
Theorem negativeInfinity_values (IT : IntType) (F : FloatType) :
  negativeInfinity (Integer IT) = 0 /\
  infinity (Integer IT) = 0 /\
  negativeInfinity (Integer IT) = infinity (Integer IT) /\
  negativeInfinity (Floating F) = S754_infinity true /\
  infinity (Floating F) = S754_infinity false.
Proof.
  assert (H : negativeInfinity (Integer IT) = 0)
    by (destruct IT as [[] []]; reflexivity).
  repeat split; auto.
Qed.

(** C10. For every integer base type [nan()] returns 0. *)
Theorem nan_of_integer_type (IT : IntType) : nan (Integer IT) = 0.
Proof. reflexivity. Qed.

(** * Further properties of the bit operations *)

Lemma rotr_as_rotl (w u k : Z) : rotr_spec w u k = rotl_spec w u (w - k).
Proof.
  unfold rotr_spec, rotl_spec. rewrite Z.lor_comm.
  replace (w - (w - k)) with k by lia. reflexivity.
Qed.

(** Bits of the reference rotations, for every count from 0 to [w]. *)
Lemma rotl_spec_bits_mod (w u k n : Z) :
  0 <= u < 2 ^ w -> 0 <= k <= w -> 0 <= n < w ->
  Z.testbit (rotl_spec w u k) n = Z.testbit u ((n - k) mod w).
Proof.
  intros Hu Hk Hn.
  destruct (Z.eq_dec k 0) as [-> | H0].
  { rewrite rotl_spec_0, Z.sub_0_r, Z.mod_small by lia. reflexivity. }
  destruct (Z.eq_dec k w) as [-> | H1].
  { rewrite rotl_spec_full by lia. f_equal.
    replace (n - w) with (n + (-1) * w) by lia.
    rewrite Z.mod_add, Z.mod_small by lia. reflexivity. }
  rewrite rotl_spec_bits by lia. destruct (Z.ltb_spec n k); f_equal.
  - replace (n - k) with (n + (w - k) + (-1) * w) by lia.
    rewrite Z.mod_add, Z.mod_small by lia. reflexivity.
  - rewrite Z.mod_small by lia. reflexivity.
Qed.

Lemma rotr_spec_bits_mod (w u k n : Z) :
  0 <= u < 2 ^ w -> 0 <= k <= w -> 0 <= n < w ->
  Z.testbit (rotr_spec w u k) n = Z.testbit u ((n + k) mod w).
Proof.
  intros Hu Hk Hn. rewrite rotr_as_rotl, rotl_spec_bits_mod by lia. f_equal.
  replace (n - (w - k)) with (n + k + (-1) * w) by lia.
  apply Z.mod_add; lia.
Qed.

Lemma rotl_spec_compose (w u a b : Z) :
  0 <= u < 2 ^ w -> 0 <= a -> 0 <= b -> a + b <= w ->
  rotl_spec w (rotl_spec w u a) b = rotl_spec w u (a + b).
Proof.
  intros Hu Ha Hb Hab.
  assert (Hw : 0 <= w) by lia.
  destruct (Z.eq_dec w 0) as [Hz | Hz].
  { assert (a = 0) by lia. assert (b = 0) by lia. subst a b.
    unfold rotl_spec, to_unsigned. rewrite Hz. simpl. rewrite !Z.mod_1_r.
    reflexivity. }
  apply (eq_by_low_bits w); try apply rotl_spec_range; try lia.
  intros n Hn.
  pose proof (Z.mod_pos_bound (n - b) w ltac:(lia)) as Hm.
  rewrite rotl_spec_bits_mod by (try apply rotl_spec_range; lia).
  rewrite !rotl_spec_bits_mod by lia. f_equal.
  rewrite Zminus_mod_idemp_l. f_equal. lia.
Qed.

Lemma rotr_spec_compose (w u a b : Z) :
  0 <= u < 2 ^ w -> 0 <= a -> 0 <= b -> a + b <= w ->
  rotr_spec w (rotr_spec w u a) b = rotr_spec w u (a + b).
Proof.
  intros Hu Ha Hb Hab.
  assert (Hw : 0 <= w) by lia.
  destruct (Z.eq_dec w 0) as [Hz | Hz].
  { assert (a = 0) by lia. assert (b = 0) by lia. subst a b.
    unfold rotr_spec, to_unsigned. rewrite Hz. simpl. rewrite !Z.mod_1_r.
    reflexivity. }
  apply (eq_by_low_bits w); try apply rotr_spec_range; try lia.
  intros n Hn.
  pose proof (Z.mod_pos_bound (n + b) w ltac:(lia)) as Hm.
  rewrite rotr_spec_bits_mod by (try apply rotr_spec_range; lia).
  rewrite !rotr_spec_bits_mod by lia. f_equal.
  rewrite Zplus_mod_idemp_l. f_equal. lia.
Qed.

Lemma rotr_rotl_spec_full (w u k : Z) :
  0 < w -> 0 <= u < 2 ^ w -> 0 <= k <= w ->
  rotr_spec w (rotl_spec w u k) k = u.
Proof.
  intros Hw Hu Hk.
  destruct (Z.eq_dec k 0) as [-> | H0];
    [rewrite rotl_spec_0, rotr_spec_0 by lia; reflexivity|].
  destruct (Z.eq_dec k w) as [-> | H1];
    [rewrite rotl_spec_full, rotr_spec_full by lia; reflexivity|].
  apply rotr_rotl_spec; lia.
Qed.

Lemma rotl_rotr_spec_full (w u k : Z) :
  0 < w -> 0 <= u < 2 ^ w -> 0 <= k <= w ->
  rotl_spec w (rotr_spec w u k) k = u.
Proof.
  intros Hw Hu Hk.
  destruct (Z.eq_dec k 0) as [-> | H0];
    [rewrite rotr_spec_0, rotl_spec_0 by lia; reflexivity|].
  destruct (Z.eq_dec k w) as [-> | H1];
    [rewrite rotr_spec_full, rotl_spec_full by lia; reflexivity|].
  apply rotl_rotr_spec; lia.
Qed.

(** X1. A right rotation by [k] is the left rotation by the remaining
    [bit-width - k] positions, for every count from 0 to the bit width and
    every argument. *)
Theorem rotateBitsRight_as_rotateBitsLeft tc ss (T : IntType) (v k : Z) :
  0 <= k <= bit_width (int_size T) ->
  rotateBitsRight tc ss T v k =
  rotateBitsLeft tc ss T v (bit_width (int_size T) - k).
Proof.
  intros Hk. rewrite rotateBitsRight_spec, rotateBitsLeft_spec by lia.
  rewrite rotr_as_rotl. reflexivity.
Qed.

Lemma rotateBitsRight_as_rotateBitsLeft_witness :
  rotateBitsRight GNUC ShiftOut (intN B2) (-12345) 5 =
  rotateBitsLeft GNUC ShiftOut (intN B2) (-12345)
    (bit_width (int_size (intN B2)) - 5).
Proof.
  apply (rotateBitsRight_as_rotateBitsLeft GNUC ShiftOut (intN B2) (-12345) 5).
  cbn; lia.
Defined.

(** X2. Rotations in one direction add up: rotating by [a] and then by
    [b] is rotating by [a + b], as long as [a + b] does not exceed the bit
    width. *)
Theorem rotate_compose tc ss (T : IntType) (v a b : Z) :
  0 <= a -> 0 <= b -> a + b <= bit_width (int_size T) ->
  rotateBitsLeft tc ss T (rotateBitsLeft tc ss T v a) b =
    rotateBitsLeft tc ss T v (a + b) /\
  rotateBitsRight tc ss T (rotateBitsRight tc ss T v a) b =
    rotateBitsRight tc ss T v (a + b).
Proof.
  intros Ha Hb Hab. pose proof (bit_width_pos (int_size T)) as Hw.
  pose proof (to_unsigned_range (bit_width (int_size T)) v ltac:(lia)) as Hu.
  rewrite !rotateBitsLeft_spec, !rotateBitsRight_spec by lia.
  rewrite !to_unsigned_convert
    by (apply rotl_spec_range || apply rotr_spec_range; lia).
  rewrite rotl_spec_compose, rotr_spec_compose by lia. split; reflexivity.
Qed.

Lemma rotate_compose_witness :
  rotateBitsLeft MSC_VER ShiftOut (uintN B4)
    (rotateBitsLeft MSC_VER ShiftOut (uintN B4) 0x12345678 20) 12 =
    rotateBitsLeft MSC_VER ShiftOut (uintN B4) 0x12345678 (20 + 12) /\
  rotateBitsRight MSC_VER ShiftOut (uintN B4)
    (rotateBitsRight MSC_VER ShiftOut (uintN B4) 0x12345678 20) 12 =
    rotateBitsRight MSC_VER ShiftOut (uintN B4) 0x12345678 (20 + 12).
Proof.
  apply (rotate_compose MSC_VER ShiftOut (uintN B4) 0x12345678 20 12);
    cbn; lia.
Defined.

(** X3. For an unsigned type of [W] bits, bit [n] of the left rotation of
    [v] by [k] is bit [(n - k) mod W] of [v], and bit [n] of the right
    rotation is bit [(n + k) mod W]: every bit moves cyclically and none is
    lost. *)
Theorem rotate_bits tc ss (bc : ByteCount) (v k n : Z) :
  in_range (uintN bc) v -> 0 <= k <= bit_width bc -> 0 <= n < bit_width bc ->
  Z.testbit (rotateBitsLeft tc ss (uintN bc) v k) n =
    Z.testbit v ((n - k) mod bit_width bc) /\
  Z.testbit (rotateBitsRight tc ss (uintN bc) v k) n =
    Z.testbit v ((n + k) mod bit_width bc).
Proof.
  intros Hv Hk Hn. unfold in_range in Hv; cbn [uintN int_signed int_size] in Hv.
  rewrite rotateBitsLeft_spec, rotateBitsRight_spec
    by (cbn [uintN int_size]; lia).
  unfold convert; cbn [uintN int_signed int_size].
  rewrite !(to_unsigned_small _ v) by exact Hv.
  rewrite !to_unsigned_small
    by (apply rotl_spec_range || apply rotr_spec_range; lia).
  rewrite rotl_spec_bits_mod, rotr_spec_bits_mod by lia. split; reflexivity.
Qed.

Lemma rotate_bits_witness :
  Z.testbit (rotateBitsLeft OtherCompiler ShiftMasked (uintN B8) 1 64) 0 =
    Z.testbit 1 ((0 - 64) mod bit_width B8) /\
  Z.testbit (rotateBitsRight OtherCompiler ShiftMasked (uintN B8) 1 64) 0 =
    Z.testbit 1 ((0 + 64) mod bit_width B8).
Proof.
  apply (rotate_bits OtherCompiler ShiftMasked B8 1 64 0).
  - apply in_rangeb_spec; reflexivity.
  - cbn; lia.
  - cbn; lia.
Defined.

(** X4. For a count from 0 to the bit width the rotations give the same
    value whether the intrinsics or the shift form are compiled in, and
    whatever a full-width shift produces. *)
Theorem rotate_same_on_every_platform tc ss tc' ss' (T : IntType) (v k : Z) :
  0 <= k <= bit_width (int_size T) ->
  rotateBitsLeft tc ss T v k = rotateBitsLeft tc' ss' T v k /\
  rotateBitsRight tc ss T v k = rotateBitsRight tc' ss' T v k.
Proof.
  intros Hk. rewrite !rotateBitsLeft_spec, !rotateBitsRight_spec by lia.
  split; reflexivity.
Qed.

Lemma rotate_same_on_every_platform_witness :
  rotateBitsLeft MSC_VER ShiftOut (uintN B8) 0xF0E1D2C3B4A59687 0 =
    rotateBitsLeft GNUC ShiftMasked (uintN B8) 0xF0E1D2C3B4A59687 0 /\
  rotateBitsRight MSC_VER ShiftOut (uintN B8) 0xF0E1D2C3B4A59687 0 =
    rotateBitsRight GNUC ShiftMasked (uintN B8) 0xF0E1D2C3B4A59687 0.
Proof.
  apply (rotate_same_on_every_platform MSC_VER ShiftOut GNUC ShiftMasked
           (uintN B8) 0xF0E1D2C3B4A59687 0).
  cbn; lia.
Defined.

Lemma intrinsic_swap_ignores_shift ss ss' bc (u : Z) :
  _invertByteOrderImpl GNUC ss bc u = _invertByteOrderImpl GNUC ss' bc u.
Proof. destruct bc; reflexivity. Qed.

Lemma _invertByteOrderImpl_same tc ss tc' ss' bc (u : Z) :
  0 <= u < 2 ^ bit_width bc ->
  _invertByteOrderImpl tc ss bc u = _invertByteOrderImpl tc' ss' bc u.
Proof.
  intros Hu.
  rewrite <- (fallback_is_byteswap tc ss bc u Hu).
  rewrite <- (fallback_is_byteswap tc' ss' bc u Hu).
  rewrite (fallback_is_byteswap GNUC ss bc u Hu).
  rewrite (fallback_is_byteswap GNUC ss' bc u Hu).
  apply intrinsic_swap_ignores_shift.
Qed.

Lemma byte_count_pow (bc : ByteCount) :
  256 ^ Z.of_nat (Z.to_nat (byte_count bc)) = 2 ^ bit_width bc.
Proof. destruct bc; reflexivity. Qed.

Lemma _invertByteOrderImpl_byteswap tc ss bc (u : Z) :
  0 <= u < 2 ^ bit_width bc ->
  _invertByteOrderImpl tc ss bc u = byteswap (Z.to_nat (byte_count bc)) u.
Proof.
  intros Hu. rewrite (_invertByteOrderImpl_same tc ss GNUC ss bc u Hu).
  destruct bc; try reflexivity.
  change (0 <= u < 256) in Hu.
  change (Z.to_nat (byte_count B1)) with 1%nat.
  unfold byteswap. cbn [_invertByteOrderImpl IntOpImpl1._invertByteOrderImpl
                        bytes_of rev app of_bytes].
  rewrite Z.mod_small by lia. unfold IntOpImpl1._invertByteOrderImpl. lia.
Qed.

(** X5. [invertByteOrder] gives the same value in the three preprocessor
    branches: the shift-and-mask code computes what the byte-swap
    intrinsics compute. *)
Theorem invertByteOrder_same_on_every_platform tc ss tc' ss'
    (T : IntType) (v : Z) :
  invertByteOrder tc ss T v = invertByteOrder tc' ss' T v.
Proof.
  unfold invertByteOrder; cbv zeta. f_equal.
  apply _invertByteOrderImpl_same, to_unsigned_range.
  pose proof (bit_width_pos (int_size T)); lia.
Qed.

(** X6. For an unsigned type of [n] bytes, the little-endian byte sequence
    of [invertByteOrder(v)] is the byte sequence of [v] in reverse order,
    in every preprocessor branch. *)
Theorem invertByteOrder_reverses_bytes tc ss (bc : ByteCount) (v : Z) :
  in_range (uintN bc) v ->
  bytes_of (Z.to_nat (byte_count bc)) (invertByteOrder tc ss (uintN bc) v) =
  rev (bytes_of (Z.to_nat (byte_count bc)) v).
Proof.
  intros Hv. unfold in_range in Hv; cbn [uintN int_signed int_size] in Hv.
  unfold invertByteOrder, convert; cbn [uintN int_signed int_size].
  rewrite (to_unsigned_small _ v) by exact Hv.
  rewrite to_unsigned_small by (apply _invertByteOrderImpl_range, Hv).
  rewrite _invertByteOrderImpl_byteswap by exact Hv. unfold byteswap.
  set (n := Z.to_nat (byte_count bc)).
  replace n with (length (rev (bytes_of n v))) at 1
    by (rewrite length_rev; apply bytes_of_length).
  apply bytes_of_of_bytes, Forall_rev, bytes_of_bytes.
Qed.

Lemma invertByteOrder_reverses_bytes_witness :
  bytes_of (Z.to_nat (byte_count B4))
    (invertByteOrder OtherCompiler ShiftOut (uintN B4) 0xA1B2C3D4) =
  rev (bytes_of (Z.to_nat (byte_count B4)) 0xA1B2C3D4).
Proof.
  apply (invertByteOrder_reverses_bytes OtherCompiler ShiftOut B4 0xA1B2C3D4).
  apply in_rangeb_spec; reflexivity.
Defined.

Lemma to_unsigned_idem (w x : Z) :
  0 <= w -> to_unsigned w (to_unsigned w x) = to_unsigned w x.
Proof. intros; apply to_unsigned_small, to_unsigned_range; lia. Qed.

(** X7. On a signed type each bit operation is the operation of the
    unsigned type of the same width, applied to the two's-complement bit
    pattern of the argument and read back as a signed value. *)
Theorem signed_operations_reinterpret tc ss (bc : ByteCount) (v k : Z) :
  invertByteOrder tc ss (intN bc) v =
    to_signed (bit_width bc)
      (invertByteOrder tc ss (uintN bc) (to_unsigned (bit_width bc) v)) /\
  rotateBitsLeft tc ss (intN bc) v k =
    to_signed (bit_width bc)
      (rotateBitsLeft tc ss (uintN bc) (to_unsigned (bit_width bc) v) k) /\
  rotateBitsRight tc ss (intN bc) v k =
    to_signed (bit_width bc)
      (rotateBitsRight tc ss (uintN bc) (to_unsigned (bit_width bc) v) k).
Proof.
  pose proof (bit_width_pos bc) as Hw.
  unfold invertByteOrder, rotateBitsLeft, rotateBitsRight, convert;
    cbn [uintN intN int_signed int_size].
  rewrite !to_unsigned_idem, !to_signed_to_unsigned by lia.
  repeat split; reflexivity.
Qed.

Lemma swap_is_rotation_by_8 tc ss (u : Z) :
  0 <= u < 2 ^ 16 ->
  _invertByteOrderImpl tc ss B2 u = rotl_spec 16 u 8.
Proof.
  intros Hu.
  rewrite (_invertByteOrderImpl_same tc ss OtherCompiler ss B2 u Hu).
  apply (eq_by_low_bits 16); try lia.
  - apply (_invertByteOrderImpl_range OtherCompiler ss B2 u Hu).
  - apply rotl_spec_range; lia.
  - intros i Hi. cbn [_invertByteOrderImpl].
    rewrite fallback2_bits, rotl_spec_bits_mod by lia.
    decide_cmp. cbn [andb]. f_equal. unfold swap_index.
    Z.div_mod_to_equations; lia.
Qed.

(** X8. For a 2-byte type, signed or unsigned, inverting the byte order is
    the rotation by 8 bits, to the left or to the right. *)
Theorem invertByteOrder_2_bytes_is_rotation tc ss (sg : bool) (v : Z) :
  invertByteOrder tc ss {| int_size := B2; int_signed := sg |} v =
    rotateBitsLeft tc ss {| int_size := B2; int_signed := sg |} v 8 /\
  invertByteOrder tc ss {| int_size := B2; int_signed := sg |} v =
    rotateBitsRight tc ss {| int_size := B2; int_signed := sg |} v 8.
Proof.
  assert (H : invertByteOrder tc ss {| int_size := B2; int_signed := sg |} v =
              rotateBitsLeft tc ss {| int_size := B2; int_signed := sg |} v 8).
  { rewrite rotateBitsLeft_spec by (cbn; lia).
    unfold invertByteOrder; cbn [int_size]. f_equal.
    apply swap_is_rotation_by_8. apply (to_unsigned_range 16); lia. }
  split; [exact H|]. rewrite H.
  rewrite rotateBitsLeft_spec, rotateBitsRight_spec by (cbn; lia).
  rewrite rotr_as_rotl. reflexivity.
Qed.

Lemma convert_inj (T : IntType) (x y : Z) :
  0 <= x < 2 ^ bit_width (int_size T) ->
  0 <= y < 2 ^ bit_width (int_size T) ->
  convert T x = convert T y -> x = y.
Proof.
  intros Hx Hy E.
  rewrite <- (to_unsigned_convert T x Hx), <- (to_unsigned_convert T y Hy), E.
  reflexivity.
Qed.

Lemma to_unsigned_inj (T : IntType) (v1 v2 : Z) :
  in_range T v1 -> in_range T v2 ->
  to_unsigned (bit_width (int_size T)) v1 =
  to_unsigned (bit_width (int_size T)) v2 -> v1 = v2.
Proof.
  intros H1 H2 E.
  rewrite <- (convert_to_unsigned T v1 H1), <- (convert_to_unsigned T v2 H2), E.
  reflexivity.
Qed.

(** X9. The three bit operations are injective on the values of a type:
    two different values never have the same byte-swapped or rotated
    result (for a rotation count from 0 to the bit width). *)
Theorem bit_operations_injective tc ss (T : IntType) (v1 v2 k : Z) :
  in_range T v1 -> in_range T v2 -> 0 <= k <= bit_width (int_size T) ->
  (invertByteOrder tc ss T v1 = invertByteOrder tc ss T v2 -> v1 = v2) /\
  (rotateBitsLeft tc ss T v1 k = rotateBitsLeft tc ss T v2 k -> v1 = v2) /\
  (rotateBitsRight tc ss T v1 k = rotateBitsRight tc ss T v2 k -> v1 = v2).
Proof.
  intros H1 H2 Hk. pose proof (bit_width_pos (int_size T)) as Hw.
  set (w := bit_width (int_size T)) in *.
  pose proof (to_unsigned_range w v1 ltac:(lia)) as Hu1.
  pose proof (to_unsigned_range w v2 ltac:(lia)) as Hu2.
  repeat split; intros E; apply (to_unsigned_inj T); auto; fold w.
  - unfold invertByteOrder in E; cbv zeta in E; fold w in E.
    apply convert_inj in E;
      try (apply _invertByteOrderImpl_range; assumption).
    rewrite <- (_invertByteOrderImpl_involutive tc ss (int_size T)
                  (to_unsigned w v1) Hu1), E.
    apply _invertByteOrderImpl_involutive, Hu2.
  - rewrite !rotateBitsLeft_spec in E by (fold w; lia). fold w in E.
    apply convert_inj in E; try (apply rotl_spec_range; lia).
    rewrite <- (rotr_rotl_spec_full w (to_unsigned w v1) k) by lia.
    rewrite E. apply rotr_rotl_spec_full; lia.
  - rewrite !rotateBitsRight_spec in E by (fold w; lia). fold w in E.
    apply convert_inj in E; try (apply rotr_spec_range; lia).
    rewrite <- (rotl_rotr_spec_full w (to_unsigned w v1) k) by lia.
    rewrite E. apply rotl_rotr_spec_full; lia.
Qed.

Lemma bit_operations_injective_witness :
  (invertByteOrder GNUC ShiftOut (intN B4) (-7) =
   invertByteOrder GNUC ShiftOut (intN B4) (-7) -> -7 = -7) /\
  (rotateBitsLeft GNUC ShiftOut (intN B4) (-7) 32 =
   rotateBitsLeft GNUC ShiftOut (intN B4) (-7) 32 -> -7 = -7) /\
  (rotateBitsRight GNUC ShiftOut (intN B4) (-7) 32 =
   rotateBitsRight GNUC ShiftOut (intN B4) (-7) 32 -> -7 = -7).
Proof.
  apply (bit_operations_injective GNUC ShiftOut (intN B4) (-7) (-7) 32).
  - apply in_rangeb_spec; reflexivity.
  - apply in_rangeb_spec; reflexivity.
  - cbn; lia.
Defined.

Lemma _invertByteOrderImpl_bits tc ss bc (u i : Z) :
  0 <= u < 2 ^ bit_width bc -> 0 <= i ->
  Z.testbit (_invertByteOrderImpl tc ss bc u) i =
  (i <? bit_width bc) && Z.testbit u (swap_index (byte_count bc) i).
Proof.
  intros Hu Hi. rewrite _invertByteOrderImpl_byteswap, byteswap_bits by lia.
  rewrite Z2Nat.id by (destruct bc; cbn; lia). reflexivity.
Qed.

Lemma all_ones_range (w : Z) : 0 <= w -> 0 <= all_ones w < 2 ^ w.
Proof. intros; apply to_unsigned_range; lia. Qed.

Lemma all_ones_bits (w n : Z) :
  0 <= w -> 0 <= n < w -> Z.testbit (all_ones w) n = true.
Proof.
  intros Hw Hn; unfold all_ones, to_unsigned.
  rewrite Z.mod_pow2_bits_low by lia. apply Z.bits_m1; lia.
Qed.

(** X10. The bit patterns with no bit set and with every bit set (0, and
    the greatest unsigned value or -1) are left unchanged by every
    rotation with a count from 0 to the bit width and by the byte swap. *)
Theorem uniform_patterns_fixed tc ss (T : IntType) (k : Z) :
  0 <= k <= bit_width (int_size T) ->
  rotateBitsLeft tc ss T 0 k = 0 /\
  rotateBitsRight tc ss T 0 k = 0 /\
  rotateBitsLeft tc ss T (convert T (-1)) k = convert T (-1) /\
  rotateBitsRight tc ss T (convert T (-1)) k = convert T (-1) /\
  invertByteOrder tc ss T (convert T (-1)) = convert T (-1).
Proof.
  intros Hk. pose proof (bit_width_pos (int_size T)) as Hw.
  set (w := bit_width (int_size T)) in *.
  assert (Hz : to_unsigned w 0 = 0) by (apply Z.mod_0_l, Z.pow_nonzero; lia).
  assert (Hc0 : convert T 0 = 0).
  { rewrite <- Hz. apply convert_to_unsigned.
    pose proof (pow2_pos w ltac:(lia)); pose proof (pow2_pos (w - 1) ltac:(lia)).
    unfold in_range; fold w; destruct (int_signed T); lia. }
  assert (Hm : to_unsigned w (convert T (-1)) = all_ones w).
  { unfold convert; fold w.
    destruct (int_signed T);
      [apply to_unsigned_to_signed | apply to_unsigned_idem]; lia. }
  assert (Hc : convert T (all_ones w) = convert T (-1)).
  { unfold convert, all_ones; fold w.
    destruct (int_signed T);
      [apply to_signed_to_unsigned | apply to_unsigned_idem]; lia. }
  pose proof (all_ones_range w ltac:(lia)) as Hr.
  rewrite !rotateBitsLeft_spec, !rotateBitsRight_spec by (fold w; lia).
  unfold invertByteOrder; cbv zeta. fold w. rewrite Hz, Hm.
  assert (L0 : rotl_spec w 0 k = 0)
    by (unfold rotl_spec; rewrite Z.shiftl_0_l, Z.shiftr_0_l; exact Hz).
  assert (R0 : rotr_spec w 0 k = 0)
    by (unfold rotr_spec; rewrite Z.shiftl_0_l, Z.shiftr_0_l; exact Hz).
  assert (L1 : rotl_spec w (all_ones w) k = all_ones w).
  { apply (eq_by_low_bits w); try apply rotl_spec_range; try lia.
    intros n Hn. rewrite rotl_spec_bits_mod by lia.
    rewrite !all_ones_bits; auto; try lia. apply Z.mod_pos_bound; lia. }
  assert (R1 : rotr_spec w (all_ones w) k = all_ones w).
  { apply (eq_by_low_bits w); try apply rotr_spec_range; try lia.
    intros n Hn. rewrite rotr_spec_bits_mod by lia.
    rewrite !all_ones_bits; auto; try lia. apply Z.mod_pos_bound; lia. }
  assert (S1 : _invertByteOrderImpl tc ss (int_size T) (all_ones w) = all_ones w).
  { apply (eq_by_low_bits w); try lia.
    - apply _invertByteOrderImpl_range, Hr.
    - intros n Hn. rewrite _invertByteOrderImpl_bits by (fold w; lia).
      fold w. decide_cmp. cbn [andb].
      rewrite !all_ones_bits; auto; try lia.
      replace w with (8 * byte_count (int_size T)) by reflexivity.
      apply swap_index_range. change (0 <= n < w). lia. }
  rewrite L0, R0, L1, R1, S1, Hc0, Hc. repeat split; reflexivity.
Qed.

Lemma uniform_patterns_fixed_witness :
  rotateBitsLeft GNUC ShiftMasked (intN B8) 0 64 = 0 /\
  rotateBitsRight GNUC ShiftMasked (intN B8) 0 64 = 0 /\
  rotateBitsLeft GNUC ShiftMasked (intN B8) (convert (intN B8) (-1)) 64 =
    convert (intN B8) (-1) /\
  rotateBitsRight GNUC ShiftMasked (intN B8) (convert (intN B8) (-1)) 64 =
    convert (intN B8) (-1) /\
  invertByteOrder GNUC ShiftMasked (intN B8) (convert (intN B8) (-1)) =
    convert (intN B8) (-1).
Proof.
  apply (uniform_patterns_fixed GNUC ShiftMasked (intN B8) 64). cbn; lia.
Defined.

(** * Further properties of the predicates and of [Number] *)

Lemma std_predicates_integer (IT : IntType) (v : Z) :
  in_range IT v ->
  std_isnan (Integer IT) v = false /\ std_isfinite (Integer IT) v = true.
Proof.
  intros Hv. pose proof (double_of_int_finite v (in_range_below_64 IT v Hv)).
  cbn [std_isnan std_isfinite]. auto using fp_isfinite_not_nan.
Qed.

Lemma isNan_value cfg (T : NumericType) (v : carrier T) :
  is_value T v -> isNan cfg T v = is_nan T v.
Proof.
  intros Hv. unfold isNan, MscNumberUtilHelper_.isNan.
  destruct T as [IT | F]; cbn [numeric_limits.is_integer negb is_nan].
  - destruct (std_predicates_integer IT v Hv) as [-> _].
    destruct (BDN_STD_ISNAN_INT_MISSING cfg); reflexivity.
  - destruct (BDN_STD_ISNAN_INT_MISSING cfg); reflexivity.
Qed.

Lemma isFinite_integer cfg (IT : IntType) (v : Z) :
  in_range IT v -> isFinite cfg (Integer IT) v = true.
Proof.
  intros Hv. unfold isFinite, MscNumberUtilHelper_.isFinite.
  cbn [numeric_limits.is_integer negb].
  destruct (std_predicates_integer IT v Hv) as [_ ->].
  destruct (BDN_STD_ISFINITE_INT_MISSING cfg); reflexivity.
Qed.

Lemma isFinite_floating cfg (F : FloatType) (v : spec_float) :
  isFinite cfg (Floating F) v = fp_isfinite v.
Proof.
  unfold isFinite, MscNumberUtilHelper_.isFinite.
  destruct (BDN_STD_ISFINITE_INT_MISSING cfg); reflexivity.
Qed.

Lemma in_range_0 (IT : IntType) : in_range IT 0.
Proof.
  unfold in_range. pose proof (bit_width_pos (int_size IT)).
  pose proof (pow2_pos (bit_width (int_size IT)) ltac:(lia)).
  pose proof (pow2_pos (bit_width (int_size IT) - 1) ltac:(lia)).
  destruct (int_signed IT); lia.
Qed.

Lemma negativeInfinity_integer (IT : IntType) :
  negativeInfinity (Integer IT) = 0.
Proof. destruct IT as [[] []]; reflexivity. Qed.

(** X11. For every value [v] of every numeric type and under both
    configurations, [isNan(v)] is true exactly when [Number<T>{v} == v] is
    false: NaN is the one value that does not compare equal to itself. *)
Theorem isNan_iff_not_self_equal cfg (T : NumericType) (v : carrier T) :
  is_value T v ->
  isNan cfg T v = negb (operator_eq (Number_ctor v) v).
Proof.
  intros Hv. rewrite isNan_value by exact Hv.
  unfold operator_eq; cbn [_value].
  destruct T as [IT | F]; cbn [is_nan builtin_eq].
  - rewrite Z.eqb_refl. reflexivity.
  - rewrite SFeqb_refl, negb_involutive. reflexivity.
Qed.

Lemma isNan_iff_not_self_equal_witness :
  isNan {| BDN_STD_ISNAN_INT_MISSING := false;
           BDN_STD_ISFINITE_INT_MISSING := false |}
        (Integer (intN B8)) (- 2 ^ 63) =
  negb (operator_eq (@Number_ctor (Integer (intN B8)) (- 2 ^ 63)) (- 2 ^ 63)).
Proof.
  apply (isNan_iff_not_self_equal _ (Integer (intN B8)) (- 2 ^ 63)).
  apply in_rangeb_spec; reflexivity.
Defined.

(** X12. For a floating-point type, [isFinite(v)] is true exactly when
    [v] lies strictly between [negativeInfinity()] and [infinity()] under
    the wrapper's own comparison operators; it is false for both
    infinities and for NaN. *)
Theorem isFinite_iff_between_infinities cfg (F : FloatType) (v : spec_float) :
  isFinite cfg (Floating F) v =
  operator_gt (@Number_ctor (Floating F) v) (negativeInfinity (Floating F)) &&
  operator_lt (@Number_ctor (Floating F) v) (infinity (Floating F)).
Proof.
  rewrite isFinite_floating.
  unfold operator_gt, operator_lt, builtin_gt; cbn [_value builtin_lt].
  change (negativeInfinity (Floating F)) with (S754_infinity true).
  change (infinity (Floating F)) with (S754_infinity false).
  destruct v as [s | [] | | s m e]; reflexivity.
Qed.

(** X13. The capability flags tell what the special values are: under
    both configurations [isNan(nan())] equals [hasNan()], and
    [isFinite] of [infinity()] and of [negativeInfinity()] equals the
    negation of [hasInfinity()]; both flags are the negation of
    [isInteger()].  For an integer type the three "special" values are
    therefore ordinary finite numbers. *)
Theorem special_values_follow_flags cfg (T : NumericType) :
  isNan cfg T (nan T) = hasNan T /\
  isFinite cfg T (infinity T) = negb (hasInfinity T) /\
  isFinite cfg T (negativeInfinity T) = negb (hasInfinity T) /\
  hasNan T = negb (isInteger T) /\
  hasInfinity T = negb (isInteger T).
Proof.
  destruct T as [IT | F].
  - rewrite negativeInfinity_integer.
    change (nan (Integer IT)) with 0. change (infinity (Integer IT)) with 0.
    rewrite (isNan_value cfg (Integer IT) 0 (in_range_0 IT)).
    rewrite (isFinite_integer cfg IT 0 (in_range_0 IT)).
    repeat split; reflexivity.
  - rewrite !isFinite_floating.
    unfold isNan, MscNumberUtilHelper_.isNan.
    destruct (BDN_STD_ISNAN_INT_MISSING cfg); repeat split; reflexivity.
Qed.

(** X14. For an integer base type the values of the type are exactly the
    integers from [minValue()] to [maxValue()]; [minValue()] is 0 for an
    unsigned type and [- maxValue() - 1] for a signed one, and
    [maxValue()] is positive. *)
Theorem integer_limits (IT : IntType) (v : Z) :
  (in_range IT v <->
   minValue (Integer IT) <= v <= maxValue (Integer IT)) /\
  minValue (Integer IT) =
    (if isSigned (Integer IT) then - maxValue (Integer IT) - 1 else 0) /\
  0 < maxValue (Integer IT).
Proof.
  unfold in_range, minValue, maxValue, isSigned.
  cbn [numeric_limits.lowest numeric_limits.max numeric_limits.is_signed].
  pose proof (bit_width_cases (int_size IT)) as Hc.
  assert (H1 : forall w, 7 <= w -> 2 <= 2 ^ w).
  { intros w Hw. change 2 with (2 ^ 1) at 1. apply Z.pow_le_mono_r; lia. }
  pose proof (H1 (bit_width (int_size IT)) ltac:(lia)).
  pose proof (H1 (bit_width (int_size IT) - 1) ltac:(lia)).
  destruct (int_signed IT); repeat split; lia.
Qed.

Lemma max_mantissa (F : FloatType) :
  Zpos (Pos.sub (Pos.iter xO xH (Z.to_pos (float_prec F))) 1) =
  2 ^ float_prec F - 1.
Proof. destruct F; reflexivity. Qed.

(** The mantissa of a number of the format has at most [prec] digits and
    its exponent is at most [emax - prec]. *)
Lemma bounded_limits (F : FloatType) (m : positive) (e : Z) :
  bounded (float_prec F) (float_emax F) m e = true ->
  Zpos m <= 2 ^ float_prec F - 1 /\ e <= float_emax F - float_prec F.
Proof.
  unfold bounded, canonical_mantissa, fexp.
  rewrite andb_true_iff, Z.eqb_eq, Z.leb_le. intros [Hc He]. split; [|exact He].
  pose proof (digits2_pos_upper m) as Hu.
  assert (Hd : Zpos (digits2_pos m) <= float_prec F) by lia.
  assert (2 ^ Zpos (digits2_pos m) <= 2 ^ float_prec F)
    by (apply Z.pow_le_mono_r; lia).
  lia.
Qed.

Lemma compare_cont_Eq_le (m M : positive) :
  (m <= M)%positive -> Pos.compare_cont Eq m M <> Gt.
Proof. intros H. exact H. Qed.

Lemma compare_cont_Eq_ge (m M : positive) :
  (m <= M)%positive -> Pos.compare_cont Eq M m <> Lt.
Proof.
  intros H E. change (Pos.compare M m = Lt) in E.
  apply Pos.le_nlt in H. apply H. exact E.
Qed.

(** X15. For a floating-point base type every finite value [v] of the
    type satisfies [minValue() <= v <= maxValue()] under the built-in
    comparison; [minValue()] is the negation of [maxValue()], a finite
    negative number (not the smallest positive one), and both lie strictly
    inside the infinities. *)
Theorem floating_limits cfg (F : FloatType) (v : spec_float) :
  is_value (Floating F) v -> finite_value F v ->
  operator_le (@Number_ctor (Floating F) (minValue (Floating F))) v = true /\
  operator_le (@Number_ctor (Floating F) v) (maxValue (Floating F)) = true /\
  minValue (Floating F) = SFopp (maxValue (Floating F)) /\
  operator_lt (@Number_ctor (Floating F) (minValue (Floating F)))
    (zero (Floating F)) = true /\
  isFinite cfg (Floating F) (minValue (Floating F)) = true /\
  operator_lt (@Number_ctor (Floating F) (negativeInfinity (Floating F)))
    (minValue (Floating F)) = true /\
  operator_lt (@Number_ctor (Floating F) (maxValue (Floating F)))
    (infinity (Floating F)) = true.
Proof.
  intros Hv Hf. rewrite isFinite_floating.
  unfold operator_le, operator_lt; cbn [_value builtin_le builtin_lt].
  unfold minValue, maxValue; cbn [numeric_limits.lowest numeric_limits.max].
  change (negativeInfinity (Floating F)) with (S754_infinity true).
  change (infinity (Floating F)) with (S754_infinity false).
  unfold SFmax_float; cbn [SFopp negb zero fp_isfinite].
  pose proof (max_mantissa F) as HM.
  set (M := Pos.sub (Pos.iter xO xH (Z.to_pos (float_prec F))) 1) in *.
  set (E := float_emax F - float_prec F).
  assert (Hcases :
    SFleb (S754_finite true M E) v = true /\
    SFleb v (S754_finite false M E) = true).
  { destruct v as [s | s | | s m e].
    - split; reflexivity.
    - unfold finite_value in Hf. destruct s; discriminate Hf.
    - discriminate Hf.
    - cbn [is_value valid_binary] in Hv.
      destruct (bounded_limits F m e Hv) as [Hm He]. fold E in He.
      assert (HmM : (m <= M)%positive) by lia.
      unfold SFleb, SFcompare. destruct s; split; try reflexivity.
      + destruct (Z.compare_spec E e) as [Heq | Hlt | Hgt];
          try reflexivity; try lia.
        pose proof (compare_cont_Eq_ge m M HmM).
        destruct (Pos.compare_cont Eq M m); simpl; congruence.
      + destruct (Z.compare_spec e E) as [Heq | Hlt | Hgt];
          try reflexivity; try lia.
        pose proof (compare_cont_Eq_le m M HmM).
        destruct (Pos.compare_cont Eq m M); congruence. }
  destruct Hcases as [H1 H2]. repeat split; assumption || reflexivity.
Qed.

Lemma floating_limits_witness :
  operator_le (@Number_ctor (Floating float) (minValue (Floating float)))
    (S754_finite false 12582912 (-23)) = true /\
  operator_le (@Number_ctor (Floating float) (S754_finite false 12582912 (-23)))
    (maxValue (Floating float)) = true /\
  minValue (Floating float) = SFopp (maxValue (Floating float)) /\
  operator_lt (@Number_ctor (Floating float) (minValue (Floating float)))
    (zero (Floating float)) = true /\
  isFinite {| BDN_STD_ISNAN_INT_MISSING := false;
              BDN_STD_ISFINITE_INT_MISSING := false |}
    (Floating float) (minValue (Floating float)) = true /\
  operator_lt (@Number_ctor (Floating float) (negativeInfinity (Floating float)))
    (minValue (Floating float)) = true /\
  operator_lt (@Number_ctor (Floating float) (maxValue (Floating float)))
    (infinity (Floating float)) = true.
Proof.
  apply (floating_limits _ float (S754_finite false 12582912 (-23)));
    reflexivity.
Defined.

(** X16. For a floating-point type every value that is not NaN lies
    between the infinities: [negativeInfinity() <= v <= infinity()]. *)
Theorem infinities_bound_every_number (F : FloatType) (v : spec_float) :
  is_nan (Floating F) v = false ->
  operator_le (@Number_ctor (Floating F) (negativeInfinity (Floating F))) v
    = true /\
  operator_le (@Number_ctor (Floating F) v) (infinity (Floating F)) = true.
Proof.
  intros Hv. unfold operator_le; cbn [_value builtin_le].
  change (negativeInfinity (Floating F)) with (S754_infinity true).
  change (infinity (Floating F)) with (S754_infinity false).
  destruct v as [s | [] | | s m e]; try discriminate Hv; split; reflexivity.
Qed.

Lemma infinities_bound_every_number_witness :
  operator_le (@Number_ctor (Floating double)
                 (negativeInfinity (Floating double)))
    (S754_infinity true) = true /\
  operator_le (@Number_ctor (Floating double) (S754_infinity true))
    (infinity (Floating double)) = true.
Proof.
  apply (infinities_bound_every_number double (S754_infinity true)).
  reflexivity.
Defined.

Lemma SFcompare_nan_l (w : spec_float) : SFcompare S754_nan w = None.
Proof. reflexivity. Qed.

Lemma SFcompare_nan_r (v : spec_float) : SFcompare v S754_nan = None.
Proof. destruct v; reflexivity. Qed.

(** X17. A NaN operand makes every comparison of the wrapper false except
    [!=], which is true, whether NaN is the wrapped value or the raw
    value. *)
Theorem nan_is_unordered (F : FloatType) (x : spec_float) :
  operator_eq (@Number_ctor (Floating F) S754_nan) x = false /\
  operator_lt (@Number_ctor (Floating F) S754_nan) x = false /\
  operator_le (@Number_ctor (Floating F) S754_nan) x = false /\
  operator_gt (@Number_ctor (Floating F) S754_nan) x = false /\
  operator_ge (@Number_ctor (Floating F) S754_nan) x = false /\
  operator_ne (@Number_ctor (Floating F) S754_nan) x = true /\
  operator_eq (@Number_ctor (Floating F) x) S754_nan = false /\
  operator_lt (@Number_ctor (Floating F) x) S754_nan = false /\
  operator_le (@Number_ctor (Floating F) x) S754_nan = false /\
  operator_gt (@Number_ctor (Floating F) x) S754_nan = false /\
  operator_ge (@Number_ctor (Floating F) x) S754_nan = false /\
  operator_ne (@Number_ctor (Floating F) x) S754_nan = true.
Proof.
  unfold operator_eq, operator_ne, operator_lt, operator_le, operator_gt,
    operator_ge, builtin_ne, builtin_gt, builtin_ge;
    cbn [_value builtin_eq builtin_lt builtin_le].
  unfold SFeqb, SFltb, SFleb.
  rewrite !SFcompare_nan_l, !SFcompare_nan_r. repeat split; reflexivity.
Qed.

Lemma SFcompare_antisym (x y : spec_float) :
  SFcompare y x = option_map CompOpp (SFcompare x y).
Proof.
  destruct x as [sx | sx | | sx mx ex], y as [sy | sy | | sy my ey];
    try destruct sx; try destruct sy; try reflexivity.
  - cbn [SFcompare option_map]. f_equal.
    rewrite (Z.compare_antisym ex ey).
    destruct (ex ?= ey); cbn [CompOpp]; try reflexivity.
    f_equal. rewrite (Pos.compare_cont_antisym mx my Eq). reflexivity.
  - cbn [SFcompare option_map]. f_equal.
    rewrite (Z.compare_antisym ex ey).
    destruct (ex ?= ey); cbn [CompOpp]; try reflexivity.
    rewrite (Pos.compare_cont_antisym mx my Eq). reflexivity.
Qed.

Lemma SFcompare_some (x y : spec_float) :
  fp_isnan x = false -> fp_isnan y = false ->
  exists c, SFcompare x y = Some c.
Proof.
  destruct x as [sx | sx | | sx mx ex], y as [sy | sy | | sy my ey];
    try discriminate; intros _ _; cbn [SFcompare]; eauto.
Qed.

(** X18. Without NaN the six operators describe one total order: for
    values [v], [w] of any numeric type that are not NaN, [>=] is the
    negation of [<], [<=] is the negation of [>], [!=] holds exactly when
    [<] or [>] holds, and [==] exactly when both [<=] and [>=] hold. *)
Theorem comparisons_total_without_nan (T : NumericType) (v w : carrier T) :
  is_nan T v = false -> is_nan T w = false ->
  operator_ge (Number_ctor v) w = negb (operator_lt (Number_ctor v) w) /\
  operator_le (Number_ctor v) w = negb (operator_gt (Number_ctor v) w) /\
  operator_ne (Number_ctor v) w =
    operator_lt (Number_ctor v) w || operator_gt (Number_ctor v) w /\
  operator_eq (Number_ctor v) w =
    operator_le (Number_ctor v) w && operator_ge (Number_ctor v) w.
Proof.
  unfold operator_eq, operator_ne, operator_lt, operator_le, operator_gt,
    operator_ge, builtin_ne, builtin_gt, builtin_ge; cbn [_value].
  destruct T as [IT | F]; cbn [is_nan builtin_eq builtin_lt builtin_le];
    intros Hv Hw.
  - destruct (Z.eqb_spec v w), (Z.ltb_spec v w), (Z.ltb_spec w v),
      (Z.leb_spec v w), (Z.leb_spec w v); cbn; repeat split; lia.
  - unfold SFeqb, SFltb, SFleb. rewrite (SFcompare_antisym v w).
    destruct (SFcompare_some v w Hv Hw) as [c ->].
    destruct c; repeat split; reflexivity.
Qed.

Lemma comparisons_total_without_nan_witness :
  operator_ge (@Number_ctor (Floating double) (S754_zero true))
      (S754_zero false)
    = negb (operator_lt (@Number_ctor (Floating double) (S754_zero true))
              (S754_zero false)) /\
  operator_le (@Number_ctor (Floating double) (S754_zero true))
      (S754_zero false)
    = negb (operator_gt (@Number_ctor (Floating double) (S754_zero true))
              (S754_zero false)) /\
  operator_ne (@Number_ctor (Floating double) (S754_zero true))
      (S754_zero false)
    = operator_lt (@Number_ctor (Floating double) (S754_zero true))
        (S754_zero false)
      || operator_gt (@Number_ctor (Floating double) (S754_zero true))
           (S754_zero false) /\
  operator_eq (@Number_ctor (Floating double) (S754_zero true))
      (S754_zero false)
    = operator_le (@Number_ctor (Floating double) (S754_zero true))
        (S754_zero false)
      && operator_ge (@Number_ctor (Floating double) (S754_zero true))
           (S754_zero false).
Proof.
  apply (comparisons_total_without_nan (Floating double)
           (S754_zero true) (S754_zero false)); reflexivity.
Defined.



Lemma is_value_zero (T : NumericType) : is_value T (zero T).
Proof. destruct T as [IT | F]; [apply in_range_0 | reflexivity]. Qed.

Lemma zero_within_limits (IT : IntType) :
  minValue (Integer IT) <= 0 <= maxValue (Integer IT).
Proof.
  pose proof (in_range_0 IT) as H. unfold in_range in H.
  unfold minValue, maxValue.
  cbn [numeric_limits.lowest numeric_limits.max].
  destruct (int_signed IT); lia.
Qed.

(** X20. A default-constructed [Number] holds 0 for every base type: its
    value is neither NaN nor infinite under both configurations, it
    compares equal to 0, and no smaller than [minValue()] and no greater
    than [maxValue()]. *)
Theorem default_number_is_zero cfg (T : NumericType) :
  getValue (Number_default T) = zero T /\
  isNan cfg T (getValue (Number_default T)) = false /\
  isFinite cfg T (getValue (Number_default T)) = true /\
  operator_eq (Number_default T) (zero T) = true /\
  operator_ge (Number_default T) (minValue T) = true /\
  operator_le (Number_default T) (maxValue T) = true.
Proof.
  unfold Number_default, getValue; cbn [_value].
  rewrite (isNan_value cfg T (zero T) (is_value_zero T)).
  unfold operator_eq, operator_ge, operator_le, builtin_ge; cbn [_value].
  destruct T as [IT | F].
  - cbn [zero is_nan builtin_eq builtin_le].
    rewrite (isFinite_integer cfg IT 0 (in_range_0 IT)).
    destruct (zero_within_limits IT) as [H1 H2].
    repeat split; try reflexivity; apply Z.leb_le; assumption.
  - rewrite isFinite_floating. repeat split; reflexivity.
Qed.
